(** * The welcome-pages sequencer of Cura (cura/UI/WelcomePagesModel.py)

    A shallow embedding of [WelcomePagesModel]: the page list, the cursor
    [_current_page_index], the stack of previous indices, the two Qt signals
    and the logger, with the navigation slots as state-passing functions.

    Conventions of the embedding.
    - A Python [int] is a [Z]; subscripting a list follows Python: an index
      in [-len, -1] counts from the end, anything outside [-len, len) raises
      [IndexError].
    - A page is the dict built in [initialize]: the keys "id" and "page_url"
      are always there, "next_page_id" and "should_show_function" are
      optional.  A [should_show_function] is a zero-argument callable, here a
      function from [unit].
    - The [deque] is used as a stack ([append] / [pop] on the right end); the
      head of the list is that right end.
    - Signals emitted and lines logged are recorded, oldest first, in two
      fields of the state, so that theorems can speak about them.
    - A Python [float] is the rational its binary64 value stands for; the
      division of two ints rounds the exact quotient to the nearest one.
    - The [while True] loop of [goToNextPage] is a fixpoint on a fuel
      argument; [OutOfFuel] stands for "still looping". *)

From Stdlib Require Import List ZArith String Bool Lia.
From Stdlib Require Import QArith Qpower Qabs Lqa Floats.
Import ListNotations.
Local Open Scope string_scope.
Local Open Scope list_scope.
Local Open Scope Z_scope.

Set Implicit Arguments.

(** ** Data *)

Record Page : Type := mkPage {
  id : string;
  page_url : string;
  next_page_id : option string;
  should_show_function : option (unit -> bool)
}.

Inductive Signal : Type :=
| allFinished
| currentPageIndexChanged.

Inductive Exception : Type :=
| IndexError
| KeyError.

Record WelcomePagesModel : Type := mkModel {
  _items : list Page;
  _current_page_index : Z;
  _previous_page_indices_stack : list Z;
  emitted : list Signal;
  logged : list (string * string)
}.

(** How a call ends. *)
Inductive Outcome : Type :=
| Returned (m : WelcomePagesModel)
| Raised (e : Exception) (m : WelcomePagesModel)
| OutOfFuel.

Definition bindO (o : Outcome) (k : WelcomePagesModel -> Outcome) : Outcome :=
  match o with
  | Returned m => k m
  | Raised e m => Raised e m
  | OutOfFuel => OutOfFuel
  end.

Notation "o >>= k" := (bindO o k) (at level 50, left associativity).

Definition Signal_eq_dec (a b : Signal) : {a = b} + {a <> b}.
Proof. decide equality. Defined.

(** ** Python primitives *)

Definition len (A : Type) (l : list A) : Z := Z.of_nat (List.length l).

(** [l[i]] *)
Definition subscript (A : Type) (l : list A) (i : Z) : option A :=
  if 0 <=? i then nth_error l (Z.to_nat i)
  else if - len l <=? i then nth_error l (Z.to_nat (len l + i))
  else None.

(** [if s:] for an optional string: [None] and the empty string are false. *)
Definition truthy (s : option string) : option string :=
  match s with
  | Some EmptyString => None
  | other => other
  end.

(** ** State updates *)

Definition emit (s : Signal) (m : WelcomePagesModel) : WelcomePagesModel :=
  mkModel (_items m) (_current_page_index m) (_previous_page_indices_stack m)
          (emitted m ++ [s])%list (logged m).

Definition Logger_log (level msg : string) (m : WelcomePagesModel)
  : WelcomePagesModel :=
  mkModel (_items m) (_current_page_index m) (_previous_page_indices_stack m)
          (emitted m) (logged m ++ [(level, msg)])%list.

(** The state right after [__init__] and [setItems pages]. *)
Definition fresh (pages : list Page) : WelcomePagesModel :=
  mkModel pages 0 [] [] [].

(** ** The methods *)

(** The methods that only read [self._items] take the page list.

    [getItem] belongs to the base class UM.Qt.ListModel, which is not part of
    the sources at hand: it subscripts [_items] and answers the empty dict
    for an index out of range.  [None] is that empty dict.  Lemma
    [walk_candidate_in_range] below shows that the navigation code never asks
    for an index out of range. *)
Definition getItem (items : list Page) (index : Z) : option Page :=
  subscript items index.

Fixpoint getPageIndexById_from (items : list Page) (page_id : string) (idx : Z)
  : option Z :=
  match items with
  | [] => None
  | page_item :: rest =>
      if String.eqb (id page_item) page_id then Some idx
      else getPageIndexById_from rest page_id (idx + 1)
  end.

Definition getPageIndexById (items : list Page) (page_id : string)
  : option Z :=
  getPageIndexById_from items page_id 0.

Definition _shouldPageBeShown (items : list Page) (page_index : Z) : bool :=
  match getItem items page_index with
  | Some next_page_item =>
      match should_show_function next_page_item with
      | Some should_show => should_show tt
      | None => true
      end
  | None => true
  end.

Definition _setCurrentPageIndex (page_index : Z) (m : WelcomePagesModel)
  : WelcomePagesModel :=
  if page_index =? _current_page_index m then m
  else
    emit currentPageIndexChanged
      (mkModel (_items m) page_index
               (_current_page_index m :: _previous_page_indices_stack m)
               (emitted m) (logged m)).

Definition resetState (m : WelcomePagesModel) : WelcomePagesModel :=
  emit currentPageIndexChanged
    (mkModel (_items m) 0 [] (emitted m) (logged m)).

Definition atEnd (m : WelcomePagesModel) : WelcomePagesModel :=
  resetState (emit allFinished m).

(** One round of the [while True] loop of [goToNextPage]. *)
Inductive Round : Type :=
| Stop (o : Outcome)                   (* a [return] or an exception *)
| Break (next_page_index : Z)          (* [break] *)
| Again (next_page_index : Z) (m : WelcomePagesModel).

Definition round (current_index : Z) (m : WelcomePagesModel) : Round :=
  match subscript (_items m) current_index with
  | None => Stop (Raised IndexError m)
  | Some page_item =>
      let resolved :=
        match truthy (next_page_id page_item) with
        | Some next_page_id =>
            match getPageIndexById (_items m) next_page_id with
            | None => inl next_page_id
            | Some idx => inr idx
            end
        | None => inr (current_index + 1)
        end in
      match resolved with
      | inl next_page_id =>
          Stop (Returned
                  (Logger_log "e"
                     ("Cannot find page with ID [" ++ next_page_id ++ "]")%string m))
      | inr next_page_index =>
          if next_page_index =? len (_items m) then Stop (Returned (atEnd m))
          else if _shouldPageBeShown (_items m) next_page_index
          then Break next_page_index
          else
            match getItem (_items m) next_page_index with
            | Some next_page_item =>
                Again next_page_index
                  (Logger_log "d"
                     ("Page [" ++ id next_page_item
                        ++ "] should not be displayed, look for the next page.")%string
                     m)
            | None => Stop (Raised KeyError m)
            end
      end
  end.

Fixpoint goToNextPage_loop (fuel : nat) (current_index : Z)
  (m : WelcomePagesModel) : Outcome :=
  match fuel with
  | O => OutOfFuel
  | S fuel' =>
      match round current_index m with
      | Stop o => o
      | Break next_page_index =>
          Returned (_setCurrentPageIndex next_page_index m)
      | Again next_page_index m' => goToNextPage_loop fuel' next_page_index m'
      end
  end.

Definition goToNextPage (fuel : nat) (from_index : option Z)
  (m : WelcomePagesModel) : Outcome :=
  let current_index :=
    match from_index with
    | None => _current_page_index m
    | Some i => i
    end in
  goToNextPage_loop fuel current_index m.

Definition goToPreviousPage (m : WelcomePagesModel) : WelcomePagesModel :=
  match _previous_page_indices_stack m with
  | [] => Logger_log "i" "No previous page, do nothing" m
  | previous_page_index :: rest =>
      emit currentPageIndexChanged
        (mkModel (_items m) previous_page_index rest (emitted m) (logged m))
  end.

Definition goToPage (fuel : nat) (page_id : string) (m : WelcomePagesModel)
  : Outcome :=
  match getPageIndexById (_items m) page_id with
  | None => Returned (Logger_log "e" "Cannot find page with ID [None]" m)
  | Some page_index =>
      if _shouldPageBeShown (_items m) page_index
      then Returned (_setCurrentPageIndex page_index m)
      else goToNextPage fuel (Some page_index) m
  end.

(** *** Python's [/] on two ints

    [a / b] on two ints is a float: the binary64 number nearest to the exact
    quotient, ties going to the even mantissa; it raises [ZeroDivisionError]
    when [b] is 0 and [OverflowError] when the rounded quotient is beyond the
    largest binary64 number.  A binary64 number is a rational
    [mantissa * 2 ^ exponent], and the embedding computes that rational. *)

(** The integer nearest to [n / d], for [d > 0], ties to even. *)
Definition round_half_even (n d : Z) : Z :=
  match 2 * (n mod d) ?= d with
  | Lt => n / d
  | Gt => n / d + 1
  | Eq => if Z.even (n / d) then n / d else n / d + 1
  end.

(** For [a, b > 0]: the [l] with [2 ^ l <= a / b < 2 ^ (l + 1)]. *)
Definition leading_exponent (a b : Z) : Z :=
  let s := Z.log2 a - Z.log2 b in
  if b * 2 ^ Z.max 0 s <=? a * 2 ^ Z.max 0 (- s) then s else s - 1.

(** The exponent of the last of the 53 bits of the mantissa; it stops at
    -1074, where the subnormal numbers are. *)
Definition ulp_exponent (a b : Z) : Z :=
  Z.max (-1074) (leading_exponent a b - 52).

Definition rounded_mantissa (a b : Z) : Z :=
  let e := ulp_exponent a b in
  round_half_even (a * 2 ^ Z.max 0 (- e)) (b * 2 ^ Z.max 0 e).

Inductive ArithmeticError : Type :=
| ZeroDivisionError
| OverflowError.

Definition int_true_divide (a b : Z) : Q + ArithmeticError :=
  if b =? 0 then inr ZeroDivisionError
  else if a =? 0 then inl 0%Q
  else
    let m := rounded_mantissa (Z.abs a) (Z.abs b) in
    let e := ulp_exponent (Z.abs a) (Z.abs b) in
    if (0 <=? e) && (2 ^ 1024 <=? m * 2 ^ e) then inr OverflowError
    else inl (inject_Z (Z.sgn a * Z.sgn b * m) * 2 ^ e)%Q.

(** The finite binary64 numbers. *)
Definition binary64 (x : Q) : Prop :=
  exists M E : Z,
    Z.abs M < 2 ^ 53 /\ -1074 <= E <= 971 /\ (x == inject_Z M * 2 ^ E)%Q.

(** The rational a binary64 float of the kernel stands for, and the float
    of a small int: what [int_true_divide] is tested against below. *)
Definition float_value (f : float) : option Q :=
  match Prim2SF f with
  | S754_zero _ => Some 0%Q
  | S754_finite s m e =>
      Some (inject_Z (if s then Z.neg m else Z.pos m) * 2 ^ e)%Q
  | _ => None
  end.

Definition float_of_int (z : Z) : float :=
  match z with
  | Z0 => PrimFloat.zero
  | Zpos _ => PrimFloat.of_uint63 (Uint63.of_Z z)
  | Zneg _ => PrimFloat.opp (PrimFloat.of_uint63 (Uint63.of_Z (- z)))
  end.

Definition agrees_with_float_division (ab : Z * Z) : bool :=
  match int_true_divide (fst ab) (snd ab),
        float_value (PrimFloat.div (float_of_int (fst ab))
                                   (float_of_int (snd ab))) with
  | inl p, Some x => Qeq_bool p x
  | _, _ => false
  end.

(** [currentProgress] returns the int 0 on an empty list and the float
    [self._current_page_index / len(self._items)] otherwise. *)
Definition currentProgress (m : WelcomePagesModel) : Q + ArithmeticError :=
  if len (_items m) =? 0 then inl 0%Q
  else int_true_divide (_current_page_index m) (len (_items m)).

Definition isCurrentPageLast (m : WelcomePagesModel) : bool :=
  _current_page_index m =? len (_items m) - 1.

(** ** Repeated calls *)

Fixpoint goToNextPage_times (fuel : nat) (k : nat) (m : WelcomePagesModel)
  : Outcome :=
  match k with
  | O => Returned m
  | S k' => goToNextPage_times fuel k' m >>= goToNextPage fuel None
  end.

Fixpoint goToPreviousPage_times (j : nat) (m : WelcomePagesModel)
  : WelcomePagesModel :=
  match j with
  | O => m
  | S j' => goToPreviousPage (goToPreviousPage_times j' m)
  end.

(** ** Successor resolution and the walk, stated on the page list

    The vocabulary of the properties: the candidate successor of an index,
    one skip over a hidden page, chains of skips, and the verdict the walk
    reaches from a starting index. *)

Definition successor (items : list Page) (i : Z) : option Z :=
  match subscript items i with
  | None => None
  | Some page_item =>
      match truthy (next_page_id page_item) with
      | Some page_id => getPageIndexById items page_id
      | None => Some (i + 1)
      end
  end.

(** The successor of [i], when it is a hidden page. *)
Definition skip_step (items : list Page) (i : Z) : option Z :=
  match successor items i with
  | Some c => if _shouldPageBeShown items c then None else Some c
  | None => None
  end.

Fixpoint skip_iter (items : list Page) (n : nat) (i : Z) : option Z :=
  match n with
  | O => Some i
  | S n' =>
      match skip_step items i with
      | Some c => skip_iter items n' c
      | None => None
      end
  end.

(** The hidden pages skipped from [i], at most [n] of them. *)
Fixpoint skip_trace (items : list Page) (n : nat) (i : Z) : list Z :=
  match n with
  | O => []
  | S n' =>
      match skip_step items i with
      | Some c => c :: skip_trace items n' c
      | None => []
      end
  end.

(** A cycle of the successor chain that runs through hidden pages only. *)
Definition hidden_cycle (items : list Page) : Prop :=
  exists i n, skip_iter items (S n) i = Some i.

(** Every index that can address a page: [-len .. len-1]. *)
Definition indices (items : list Page) : list Z :=
  map (fun j => Z.of_nat j - len items) (seq 0 (2 * List.length items)).

(** A bounded search for a hidden cycle: from every index, chains of at most
    [2 * len + 1] skips. *)
Definition cycle_at (items : list Page) (i : Z) (n : nat) : bool :=
  match skip_iter items (S n) i with
  | Some d => d =? i
  | None => false
  end.

Definition find_hidden_cycle (items : list Page) : bool :=
  existsb
    (fun i => existsb (cycle_at items i) (seq 0 (S (2 * List.length items))))
    (indices items).

Inductive Verdict : Type :=
| VIndexError
| VUnknownId (page_id : string)
| VFinished
| VFound (next_page_index : Z).

Inductive walk (items : list Page) : Z -> Verdict -> Prop :=
| walk_index_error i :
    subscript items i = None ->
    walk items i VIndexError
| walk_unknown i page_item page_id :
    subscript items i = Some page_item ->
    truthy (next_page_id page_item) = Some page_id ->
    getPageIndexById items page_id = None ->
    walk items i (VUnknownId page_id)
| walk_finished i :
    successor items i = Some (len items) ->
    walk items i VFinished
| walk_found i c :
    successor items i = Some c ->
    c <> len items ->
    _shouldPageBeShown items c = true ->
    walk items i (VFound c)
| walk_skip i c v :
    skip_step items i = Some c ->
    walk items c v ->
    walk items i v.

(** [m] with further lines in the log. *)
Definition with_log (m : WelcomePagesModel) (lines : list (string * string))
  : WelcomePagesModel :=
  mkModel (_items m) (_current_page_index m) (_previous_page_indices_stack m)
          (emitted m) (logged m ++ lines).

(** Lines of level "d", the ones the loop writes for the pages it skips. *)
Definition debug_lines (lines : list (string * string)) : Prop :=
  Forall (fun line => fst line = "d"%string) lines.

(** What [goToNextPage] does once the walk has reached its verdict. *)
Definition conclude (v : Verdict) (m : WelcomePagesModel) : Outcome :=
  match v with
  | VIndexError => Raised IndexError m
  | VUnknownId page_id =>
      Returned (Logger_log "e"
                  ("Cannot find page with ID [" ++ page_id ++ "]")%string m)
  | VFinished => Returned (atEnd m)
  | VFound c => Returned (_setCurrentPageIndex c m)
  end.

Definition start_index (from_index : option Z) (m : WelcomePagesModel) : Z :=
  match from_index with
  | None => _current_page_index m
  | Some i => i
  end.

(** The cursor, the stack and the signals are those of [m]. *)
Definition unchanged (m m' : WelcomePagesModel) : Prop :=
  _items m' = _items m /\
  _current_page_index m' = _current_page_index m /\
  _previous_page_indices_stack m' = _previous_page_indices_stack m /\
  emitted m' = emitted m.

(** A forward move to [c]: push, set, notify. *)
Definition moved_to (c : Z) (m m' : WelcomePagesModel) : Prop :=
  _items m' = _items m /\
  _current_page_index m' = c /\
  _previous_page_indices_stack m' =
    _current_page_index m :: _previous_page_indices_stack m /\
  emitted m' = emitted m ++ [currentPageIndexChanged].

(** The ways a forward navigation that returns can leave the state: as it
    was; reset after completion; or moved to a page that is shown. *)
Definition forward_result (m m' : WelcomePagesModel) : Prop :=
  unchanged m m' \/
  (_items m' = _items m /\
   _current_page_index m' = 0 /\
   _previous_page_indices_stack m' = [] /\
   emitted m' = emitted m ++ [allFinished; currentPageIndexChanged]) \/
  (moved_to (_current_page_index m') m m' /\
   _current_page_index m' <> _current_page_index m /\
   _shouldPageBeShown (_items m) (_current_page_index m') = true).

(** The index is 0 or that of a page that is shown. *)
Definition shown_or_first (items : list Page) (i : Z) : Prop :=
  i = 0 \/ _shouldPageBeShown items i = true.

(** Cursor and stack hold only such indices. *)
Definition cursor_invariant (m : WelcomePagesModel) : Prop :=
  shown_or_first (_items m) (_current_page_index m) /\
  Forall (shown_or_first (_items m)) (_previous_page_indices_stack m).

(** A page without [next_page_id] and without [should_show_function]. *)
Definition plain (p : Page) : Prop :=
  next_page_id p = None /\ should_show_function p = None.

(** [k-1; ...; 1; 0] *)
Fixpoint countdown (k : nat) : list Z :=
  match k with
  | O => []
  | S k' => Z.of_nat k' :: countdown k'
  end.

(** After [k] calls of [goToNextPage], [j] calls of [goToPreviousPage] are
    back where [k - j] calls of [goToNextPage] had arrived. *)
Definition retraces (fuel : nat) (items : list Page) (k : nat) : Prop :=
  forall j, (j <= k)%nat ->
    exists mk mi,
      goToNextPage_times fuel k (fresh items) = Returned mk /\
      goToNextPage_times fuel (k - j) (fresh items) = Returned mi /\
      _current_page_index (goToPreviousPage_times j mk)
        = _current_page_index mi /\
      _previous_page_indices_stack (goToPreviousPage_times j mk)
        = _previous_page_indices_stack mi.

(** Each of the first [k] calls of [goToNextPage] from the fresh state
    returns with the cursor on another index and without completion. *)
Definition each_call_moves (fuel : nat) (items : list Page) (k : nat) : Prop :=
  forall i, (i < k)%nat ->
    exists m m',
      goToNextPage_times fuel i (fresh items) = Returned m /\
      goToNextPage fuel None m = Returned m' /\
      _current_page_index m' <> _current_page_index m /\
      ~ In allFinished (emitted m').

(** ** The default pages and their predicate *)

(** [initialize] appends the eight default pages to [self._pages], empty
    after [__init__], and hands the list to [setItems].  The page urls come
    from [_getBuiltinWelcomePagePath], a lookup in the application's
    resources, taken here as a function of the file name. *)
Definition initialize (_getBuiltinWelcomePagePath : string -> string)
  (shouldShowMachineActions : unit -> bool) (_pages : list Page)
  : list Page :=
  _pages ++
  [ mkPage "welcome" (_getBuiltinWelcomePagePath "WelcomeContent.qml")
      None None;
    mkPage "user_agreement"
      (_getBuiltinWelcomePagePath "UserAgreementContent.qml") None None;
    mkPage "whats_new" (_getBuiltinWelcomePagePath "WhatsNewContent.qml")
      None None;
    mkPage "data_collections"
      (_getBuiltinWelcomePagePath "DataCollectionsContent.qml") None None;
    mkPage "add_network_or_local_printer"
      (_getBuiltinWelcomePagePath "AddNetworkOrLocalPrinterContent.qml")
      (Some "machine_actions") None;
    mkPage "add_printer_by_ip"
      (_getBuiltinWelcomePagePath "AddPrinterByIpContent.qml")
      (Some "machine_actions") None;
    mkPage "machine_actions"
      (_getBuiltinWelcomePagePath "FirstStartMachineActionsContent.qml")
      (Some "cloud") (Some shouldShowMachineActions);
    mkPage "cloud" (_getBuiltinWelcomePagePath "CloudContent.qml")
      None None ].

(** What [shouldShowMachineActions] asks the application: the active
    machine, if any, with the id of its definition, and the first-start
    actions of a definition, each answering [needsUserInteraction]. *)
Record MachineAction : Type := mkAction {
  needsUserInteraction : bool
}.

Record GlobalStack : Type := mkStack {
  definition_getId : string
}.

Record CuraApplication : Type := mkApplication {
  activeMachine : option GlobalStack;
  getFirstStartActions : string -> list MachineAction
}.

Definition shouldShowMachineActions (_application : CuraApplication)
  (_ : unit) : bool :=
  match activeMachine _application with
  | None => false
  | Some global_stack =>
      let definition_id := definition_getId global_stack in
      let first_start_actions :=
        getFirstStartActions _application definition_id in
      0 <? len (filter needsUserInteraction first_start_actions)
  end.

(** ** Invariants of the states the slots produce *)

Definition index_in_range (items : list Page) (i : Z) : Prop :=
  0 <= i < len items.

(** Cursor and stack address pages from the front of the list. *)
Definition cursor_in_range (m : WelcomePagesModel) : Prop :=
  index_in_range (_items m) (_current_page_index m) /\
  Forall (index_in_range (_items m)) (_previous_page_indices_stack m).

(** No two neighbours of the list are equal. *)
Fixpoint distinct_neighbours (l : list Z) : Prop :=
  match l with
  | a :: (b :: _) as rest => a <> b /\ distinct_neighbours rest
  | _ => True
  end.

(** The top of the stack is not the cursor, and no entry of the stack
    repeats the one below it. *)
Definition no_stutter (m : WelcomePagesModel) : Prop :=
  distinct_neighbours
    (_current_page_index m :: _previous_page_indices_stack m).

(** What a slot may do to the signals: nothing, and then cursor and stack
    are untouched too; or emit [currentPageIndexChanged] last, with
    [allFinished] before it only when the state has been reset. *)
Definition signal_protocol (m m' : WelcomePagesModel) : Prop :=
  (emitted m' = emitted m /\
   _current_page_index m' = _current_page_index m /\
   _previous_page_indices_stack m' = _previous_page_indices_stack m) \/
  emitted m' = emitted m ++ [currentPageIndexChanged] \/
  (emitted m' = emitted m ++ [allFinished; currentPageIndexChanged] /\
   _current_page_index m' = 0 /\
   _previous_page_indices_stack m' = []).

Definition unique_ids (items : list Page) : Prop := NoDup (map id items).

Definition no_next_page_ids (items : list Page) : Prop :=
  Forall (fun p => truthy (next_page_id p) = None) items.

(** ** Page lists used in examples *)

Definition simple_page (name : string) : Page := mkPage name "" None None.
Definition hidden_page (name : string) : Page :=
  mkPage name "" None (Some (fun _ => false)).

Definition pages_ABCD : list Page :=
  [ simple_page "A"; mkPage "B" "" (Some "D") None;
    simple_page "C"; simple_page "D" ].

Definition pages_hidden_B : list Page :=
  [ simple_page "A"; hidden_page "B"; simple_page "C" ].

(** B and C are hidden and name each other as successor. *)
Definition pages_hidden_cycle : list Page :=
  [ simple_page "A";
    mkPage "B" "" (Some "C") (Some (fun _ => false));
    mkPage "C" "" (Some "B") (Some (fun _ => false)) ].


(** A and C are hidden, and A names C as successor. *)
Definition pages_hidden_ends : list Page :=
  [ mkPage "A" "" (Some "C") (Some (fun _ => false));
    simple_page "B"; hidden_page "C" ].

(** A page that names itself as successor. *)
Definition pages_self_next : list Page :=
  [ mkPage "A" "" (Some "A") None ].

(** ** The examples of the specification, run on the model *)

Example example_ABCD :
  exists m1 m2 m3,
    goToNextPage 1 None (fresh pages_ABCD) = Returned m1 /\
    _current_page_index m1 = 1 /\
    goToNextPage 1 None m1 = Returned m2 /\
    _current_page_index m2 = 3 /\
    goToNextPage 1 None m2 = Returned m3 /\
    _current_page_index m3 = 0 /\
    emitted m3 = [currentPageIndexChanged; currentPageIndexChanged;
                  allFinished; currentPageIndexChanged].
Proof. do 3 eexists. repeat split. Qed.

Example example_hidden_B :
  exists m1,
    goToNextPage 2 None (fresh pages_hidden_B) = Returned m1 /\
    _current_page_index m1 = 2 /\ isCurrentPageLast m1 = true.
Proof. eexists. repeat split. Qed.

Example example_goToPage_hidden :
  exists m1,
    goToPage 1 "B" (fresh pages_hidden_B) = Returned m1 /\
    _current_page_index m1 = 2.
Proof. eexists. repeat split. Qed.

(** ** Subscripting and lookup *)

Lemma len_nonneg (A : Type) (l : list A) : 0 <= len l.
Proof. unfold len. lia. Qed.

Lemma subscript_Some_range (A : Type) (l : list A) i x :
  subscript l i = Some x -> - len l <= i < len l.
Proof.
  unfold subscript, len. intros H.
  destruct (0 <=? i) eqn:Hi.
  - apply Z.leb_le in Hi.
    assert (Hn : nth_error l (Z.to_nat i) <> None) by congruence.
    apply nth_error_Some in Hn. lia.
  - apply Z.leb_gt in Hi.
    destruct (- Z.of_nat (List.length l) <=? i) eqn:Hj; [|discriminate].
    apply Z.leb_le in Hj. lia.
Qed.

Lemma subscript_in_range (A : Type) (l : list A) i :
  - len l <= i < len l -> exists x, subscript l i = Some x.
Proof.
  unfold subscript, len. intros H.
  destruct (0 <=? i) eqn:Hi.
  - apply Z.leb_le in Hi.
    destruct (nth_error l (Z.to_nat i)) eqn:Hn; [eauto|].
    apply nth_error_None in Hn. lia.
  - apply Z.leb_gt in Hi.
    destruct (- Z.of_nat (List.length l) <=? i) eqn:Hj.
    + destruct (nth_error l (Z.to_nat (Z.of_nat (List.length l) + i))) eqn:Hn;
        [eauto|].
      apply nth_error_None in Hn. lia.
    + apply Z.leb_gt in Hj. lia.
Qed.

Lemma subscript_None_iff (A : Type) (l : list A) i :
  subscript l i = None <-> (i < - len l \/ len l <= i).
Proof.
  split.
  - intros H.
    destruct (Z_lt_dec i (- len l)) as [|Hlo]; [now left|].
    destruct (Z_le_dec (len l) i) as [|Hhi]; [now right|].
    destruct (@subscript_in_range A l i) as [x Hx]; [lia|congruence].
  - intros H. destruct (subscript l i) eqn:Hs; [|reflexivity].
    apply subscript_Some_range in Hs. lia.
Qed.

Lemma subscript_In (A : Type) (l : list A) i x :
  subscript l i = Some x -> In x l.
Proof.
  unfold subscript. intros H.
  destruct (0 <=? i); [eapply nth_error_In; eassumption|].
  destruct (- len l <=? i); [eapply nth_error_In; eassumption|discriminate].
Qed.

Lemma getPageIndexById_from_range items page_id k idx :
  getPageIndexById_from items page_id k = Some idx ->
  k <= idx < k + len items.
Proof.
  revert k. induction items as [|p rest IH]; intros k H; simpl in H.
  - discriminate.
  - unfold len in *. simpl List.length.
    destruct (String.eqb (id p) page_id).
    + injection H as <-. lia.
    + apply IH in H. lia.
Qed.

Lemma getPageIndexById_range items page_id idx :
  getPageIndexById items page_id = Some idx -> 0 <= idx < len items.
Proof.
  intros H. apply getPageIndexById_from_range in H. lia.
Qed.

Lemma hidden_has_item items c :
  _shouldPageBeShown items c = false ->
  exists p, getItem items c = Some p.
Proof.
  unfold _shouldPageBeShown. destruct (getItem items c); [eauto|discriminate].
Qed.

Lemma successor_range items i c :
  successor items i = Some c -> - len items < c <= len items.
Proof.
  unfold successor. intros H.
  destruct (subscript items i) as [p|] eqn:Hs; [|discriminate].
  apply subscript_Some_range in Hs.
  destruct (truthy (next_page_id p)).
  - apply getPageIndexById_range in H. lia.
  - injection H as <-. lia.
Qed.

Lemma skip_step_spec items i c :
  skip_step items i = Some c <->
  successor items i = Some c /\ _shouldPageBeShown items c = false.
Proof.
  unfold skip_step. split.
  - destruct (successor items i) as [d|]; [|discriminate].
    destruct (_shouldPageBeShown items d) eqn:Hd; [discriminate|].
    intros [= <-]. auto.
  - intros [-> ->]. reflexivity.
Qed.

(** The hidden pages the walk passes are addressed inside the list, and so
    is every page the walk stops at: [getItem] never sees an index out of
    range. *)
Lemma skip_step_range items i c :
  skip_step items i = Some c -> - len items < c < len items.
Proof.
  intros H. apply skip_step_spec in H as [Hs Hh].
  apply successor_range in Hs.
  apply hidden_has_item in Hh as [p Hp].
  apply subscript_Some_range in Hp. lia.
Qed.

Lemma walk_candidate_in_range items i c :
  walk items i (VFound c) -> - len items < c < len items.
Proof.
  intros H. remember (VFound c) as v eqn:Ev.
  induction H; try discriminate; auto.
  injection Ev as ->. apply successor_range in H. lia.
Qed.

(** ** The loop of [goToNextPage] against the walk *)

Lemma with_log_nil m : with_log m [] = m.
Proof. destruct m. unfold with_log. simpl. now rewrite app_nil_r. Qed.

Lemma with_log_app m l1 l2 :
  with_log (with_log m l1) l2 = with_log m (l1 ++ l2).
Proof. unfold with_log. simpl. now rewrite app_assoc. Qed.

Lemma round_index_error i m :
  subscript (_items m) i = None -> round i m = Stop (Raised IndexError m).
Proof. unfold round. now intros ->. Qed.

Lemma round_unknown i m page_item page_id :
  subscript (_items m) i = Some page_item ->
  truthy (next_page_id page_item) = Some page_id ->
  getPageIndexById (_items m) page_id = None ->
  round i m = Stop (conclude (VUnknownId page_id) m).
Proof. unfold round. now intros -> -> ->. Qed.

Lemma round_successor i m c :
  successor (_items m) i = Some c ->
  round i m =
    if c =? len (_items m) then Stop (Returned (atEnd m))
    else if _shouldPageBeShown (_items m) c then Break c
    else match getItem (_items m) c with
         | Some next_page_item =>
             Again c
               (Logger_log "d"
                  ("Page [" ++ id next_page_item
                     ++ "] should not be displayed, look for the next page.")%string
                  m)
         | None => Stop (Raised KeyError m)
         end.
Proof.
  unfold round, successor.
  destruct (subscript (_items m) i) as [p|]; [|discriminate].
  destruct (truthy (next_page_id p)) as [s|].
  - now intros ->.
  - now intros [= <-].
Qed.

Lemma round_finished i m :
  successor (_items m) i = Some (len (_items m)) ->
  round i m = Stop (Returned (atEnd m)).
Proof.
  intros H. rewrite (round_successor _ _ H). now rewrite Z.eqb_refl.
Qed.

Lemma round_found i m c :
  successor (_items m) i = Some c ->
  c <> len (_items m) ->
  _shouldPageBeShown (_items m) c = true ->
  round i m = Break c.
Proof.
  intros H Hc Hs. rewrite (round_successor _ _ H).
  apply Z.eqb_neq in Hc. now rewrite Hc, Hs.
Qed.

Lemma round_skip i m c :
  skip_step (_items m) i = Some c ->
  exists line, fst line = "d"%string /\ round i m = Again c (with_log m [line]).
Proof.
  intros H. pose proof (skip_step_range _ _ H) as Hr.
  apply skip_step_spec in H as [Hs Hh].
  rewrite (round_successor _ _ Hs).
  destruct (c =? len (_items m)) eqn:Hc; [apply Z.eqb_eq in Hc; lia|].
  rewrite Hh. destruct (hidden_has_item _ _ Hh) as [p ->].
  eexists (_, _). split; reflexivity.
Qed.

Lemma successor_cases items i :
  subscript items i = None \/
  (exists page_item page_id,
      subscript items i = Some page_item /\
      truthy (next_page_id page_item) = Some page_id /\
      getPageIndexById items page_id = None) \/
  (exists c, successor items i = Some c).
Proof.
  unfold successor.
  destruct (subscript items i) as [p|] eqn:Hp; [|now left].
  right. destruct (truthy (next_page_id p)) as [s|] eqn:Hs; [|right; eauto].
  destruct (getPageIndexById items s) eqn:Hid; [right; eauto|].
  left. exists p, s. auto.
Qed.

(** Whatever the loop answers is the verdict of the walk, applied to the
    state with the debug lines of the skipped pages added to the log. *)
Lemma loop_sound fuel :
  forall i m o,
    goToNextPage_loop fuel i m = o ->
    o <> OutOfFuel ->
    exists v lines,
      debug_lines lines /\
      walk (_items m) i v /\ o = conclude v (with_log m lines).
Proof.
  induction fuel as [|fuel IH]; intros i m o Ho Hne; simpl in Ho.
  - congruence.
  - destruct (successor_cases (_items m) i)
      as [Hnone | [(p & s & Hp & Hs & Hid) | (c & Hc)]].
    + rewrite (round_index_error _ _ Hnone) in Ho. subst o.
      exists VIndexError, []. rewrite with_log_nil.
      repeat split; [constructor|now constructor].
    + rewrite (round_unknown _ _ Hp Hs Hid) in Ho. subst o.
      exists (VUnknownId s), []. rewrite with_log_nil.
      repeat split; [constructor|econstructor; eassumption].
    + destruct (Z.eq_dec c (len (_items m))) as [Hend|Hend].
      * subst c. rewrite (round_finished _ _ Hc) in Ho. subst o.
        exists VFinished, []. rewrite with_log_nil.
        repeat split; [constructor|now constructor].
      * destruct (_shouldPageBeShown (_items m) c) eqn:Hshow.
        -- rewrite (round_found _ _ Hc Hend Hshow) in Ho. subst o.
           exists (VFound c), []. rewrite with_log_nil.
           repeat split; [constructor|now apply walk_found].
        -- assert (Hskip : skip_step (_items m) i = Some c)
             by (apply skip_step_spec; auto).
           destruct (round_skip _ _ Hskip) as (line & Hd & Hr).
           rewrite Hr in Ho.
           destruct (IH _ _ _ Ho Hne) as (v & lines & Hl & Hw & Hv).
           exists v, ([line] ++ lines). rewrite <- with_log_app.
           repeat split; [now constructor| |exact Hv].
           eapply walk_skip; eassumption.
Qed.

(** Conversely the loop reaches the verdict of the walk, with enough fuel
    and with any more. *)
Lemma loop_complete items i v :
  walk items i v ->
  forall m, _items m = items ->
    exists fuel lines,
      debug_lines lines /\
      forall fuel', (fuel <= fuel')%nat ->
        goToNextPage_loop fuel' i m = conclude v (with_log m lines).
Proof.
  induction 1 as [i Hn | i p s Hp Hs Hid | i Hc | i c Hc Hend Hshow
                 | i c v Hskip Hw IH]; intros m <-.
  - exists 1%nat, []. split; [constructor|].
    intros [|f] Hf; [lia|]. simpl.
    now rewrite (round_index_error _ _ Hn), with_log_nil.
  - exists 1%nat, []. split; [constructor|].
    intros [|f] Hf; [lia|]. simpl.
    now rewrite (round_unknown _ _ Hp Hs Hid), with_log_nil.
  - exists 1%nat, []. split; [constructor|].
    intros [|f] Hf; [lia|]. simpl.
    now rewrite (round_finished _ _ Hc), with_log_nil.
  - exists 1%nat, []. split; [constructor|].
    intros [|f] Hf; [lia|]. simpl.
    now rewrite (round_found _ _ Hc Hend Hshow), with_log_nil.
  - destruct (round_skip _ _ Hskip) as (line & Hd & Hr).
    destruct (IH (with_log m [line]) eq_refl) as (fuel & lines & Hl & Hloop).
    exists (S fuel), ([line] ++ lines). split; [now constructor|].
    intros [|f] Hf; [lia|]. simpl.
    rewrite Hr, Hloop by lia. now rewrite with_log_app.
Qed.

Lemma walk_found_shown items i c :
  walk items i (VFound c) -> _shouldPageBeShown items c = true.
Proof.
  intros H. remember (VFound c) as v eqn:Ev.
  induction H; try discriminate; auto.
  now injection Ev as ->.
Qed.

Lemma walk_no_index_error items i :
  - len items <= i < len items -> ~ walk items i VIndexError.
Proof.
  intros Hi H. remember VIndexError as v eqn:Ev.
  induction H; try discriminate.
  - apply subscript_None_iff in H. lia.
  - apply IHwalk; [|assumption].
    apply skip_step_range in H. lia.
Qed.

(** ** Effects of the helpers on the state *)

Lemma unchanged_with_log m lines : unchanged m (with_log m lines).
Proof. now repeat split. Qed.

Lemma _setCurrentPageIndex_same m :
  _setCurrentPageIndex (_current_page_index m) m = m.
Proof. unfold _setCurrentPageIndex. now rewrite Z.eqb_refl. Qed.

Lemma _setCurrentPageIndex_other c m :
  c <> _current_page_index m -> moved_to c m (_setCurrentPageIndex c m).
Proof.
  intros Hc. unfold _setCurrentPageIndex.
  apply Z.eqb_neq in Hc. rewrite Hc. now repeat split.
Qed.

(** ** reset and finish *)

(** C8. From every state, [resetState] sets the cursor to 0, empties the
    stack of previous indices and emits [currentPageIndexChanged] and nothing
    else; [atEnd] emits [allFinished] first and then does what [resetState]
    does. *)
Theorem resetState_atEnd_effect m :
  _items (resetState m) = _items m /\
  _current_page_index (resetState m) = 0 /\
  _previous_page_indices_stack (resetState m) = [] /\
  emitted (resetState m) = emitted m ++ [currentPageIndexChanged] /\
  atEnd m = resetState (emit allFinished m) /\
  emitted (atEnd m) = emitted m ++ [allFinished; currentPageIndexChanged] /\
  _current_page_index (atEnd m) = 0 /\
  _previous_page_indices_stack (atEnd m) = [].
Proof.
  repeat split. unfold atEnd, resetState, emit. simpl.
  now rewrite <- app_assoc.
Qed.

(** ** Derived values *)

(** *** Rounding to the nearest integer *)

Unset Implicit Arguments.

Lemma round_half_even_cases n d :
  0 < d ->
  (round_half_even n d = n / d /\ 2 * (n mod d) <= d) \/
  (round_half_even n d = n / d + 1 /\ d <= 2 * (n mod d)).
Proof.
  intros Hd. unfold round_half_even.
  destruct (2 * (n mod d) ?= d) eqn:E.
  - apply Z.compare_eq in E.
    destruct (Z.even (n / d)); [left|right];
      (split; [reflexivity|rewrite E; apply Z.le_refl]).
  - apply Z.compare_lt_iff in E. left. split; [reflexivity|now apply Z.lt_le_incl].
  - apply Z.compare_gt_iff in E. right. split; [reflexivity|now apply Z.lt_le_incl].
Qed.

Lemma round_half_even_nearest n d k :
  0 < d ->
  Z.abs (round_half_even n d * d - n) <= Z.abs (k * d - n).
Proof.
  intros Hd.
  pose proof (Z.div_mod n d ltac:(lia)) as Hdm.
  pose proof (Z.mod_pos_bound n d Hd) as Hr.
  set (f := n / d) in *. set (r := n mod d) in *.
  assert (Hk : k <= f \/ f + 1 <= k) by lia.
  destruct (round_half_even_cases n d Hd) as [[-> H]|[-> H]]; fold f r in H |- *.
  - destruct Hk as [Hk|Hk]; nia.
  - destruct Hk as [Hk|Hk]; nia.
Qed.

Lemma round_half_even_bounds n d lo hi :
  0 < d -> lo * d <= n -> n < hi * d ->
  lo <= round_half_even n d <= hi.
Proof.
  intros Hd Hlo Hhi.
  pose proof (Z.div_mod n d ltac:(lia)) as Hdm.
  pose proof (Z.mod_pos_bound n d Hd) as Hr.
  set (f := n / d) in *. set (r := n mod d) in *.
  assert (Hlf : lo <= f) by nia. assert (Hfh : f < hi) by nia.
  destruct (round_half_even_cases n d Hd) as [[-> H]|[-> H]]; fold f r in H |- *; lia.
Qed.

(** *** The quotient of two ints as a binary64 number *)

Section Binary64Rounding.

Local Open Scope Q_scope.

Lemma two_neq_0 : ~ 2 == 0.
Proof. discriminate. Qed.

Lemma pow2_pos z : 0 < 2 ^ z.
Proof. apply Qpower_0_lt. reflexivity. Qed.

Lemma pow2_add x y : 2 ^ (x + y) == 2 ^ x * 2 ^ y.
Proof. apply Qpower_plus, two_neq_0. Qed.

Lemma pow2_le x y : (x <= y)%Z -> 2 ^ x <= 2 ^ y.
Proof. intros H. apply Qpower_le_compat_l; [exact H|discriminate]. Qed.

Lemma pow2_inject z : (0 <= z)%Z -> inject_Z (2 ^ z) == 2 ^ z.
Proof. intros H. now rewrite Zpower_Qpower. Qed.

Lemma pow2_split z :
  inject_Z (2 ^ Z.max 0 z) == 2 ^ z * inject_Z (2 ^ Z.max 0 (- z)).
Proof.
  destruct (Z.le_gt_cases 0 z) as [H|H].
  - rewrite Z.max_r, Z.max_l by lia. rewrite (pow2_inject z) by lia.
    change (inject_Z (2 ^ 0)) with 1. ring.
  - rewrite Z.max_l, Z.max_r by lia. rewrite (pow2_inject (- z)) by lia.
    rewrite <- pow2_add. replace (z + - z)%Z with 0%Z by lia. reflexivity.
Qed.

Lemma inject_Z_pos z : (0 < z)%Z -> 0 < inject_Z z.
Proof. intros H. change 0 with (inject_Z 0). now rewrite <- Zlt_Qlt. Qed.

Lemma cancel_le B s t x :
  0 < B -> 0 < s -> (B * (t * s) <= x * B * s <-> t <= x).
Proof.
  intros HB Hs.
  assert (Hc : 0 < B * s) by (apply Qmult_lt_0_compat; assumption).
  setoid_replace (B * (t * s)) with ((B * s) * t) by ring.
  setoid_replace (x * B * s) with ((B * s) * x) by ring.
  now apply Qmult_le_l.
Qed.

Lemma cancel_lt B s t x :
  0 < B -> 0 < s -> (x * B * s < B * (t * s) <-> x < t).
Proof.
  intros HB Hs.
  assert (Hc : 0 < B * s) by (apply Qmult_lt_0_compat; assumption).
  setoid_replace (B * (t * s)) with ((B * s) * t) by ring.
  setoid_replace (x * B * s) with ((B * s) * x) by ring.
  now apply Qmult_lt_l.
Qed.

Lemma below_grid (x u v c : Q) :
  x < 2 * c -> 0 < c -> 0 < u -> u <= v -> x * u < c * (2 * v).
Proof.
  intros Hx Hc Hu Huv. destruct (Qlt_le_dec 0 x) as [H|H].
  - assert (x * u <= x * v) by nra. nra.
  - assert (x * u <= 0) by nra. nra.
Qed.

Section Positive.

Variables a b : Z.
Hypothesis a_pos : (0 < a)%Z.
Hypothesis b_pos : (0 < b)%Z.

Variable q : Q.
Hypothesis q_spec : inject_Z a == q * inject_Z b.

Lemma q_pos : 0 < q.
Proof.
  pose proof (inject_Z_pos a a_pos) as Ha.
  pose proof (inject_Z_pos b b_pos) as Hb.
  rewrite q_spec in Ha.
  destruct (Qlt_le_dec 0 q) as [|Hle]; [assumption|]. exfalso. nra.
Qed.

Lemma scaled_le z :
  (b * 2 ^ Z.max 0 z <= a * 2 ^ Z.max 0 (- z))%Z <-> 2 ^ z <= q.
Proof.
  rewrite Zle_Qle, !inject_Z_mult, (pow2_split z), q_spec.
  assert (Hp : 0 < inject_Z (2 ^ Z.max 0 (- z))).
  { apply inject_Z_pos. apply Z.pow_pos_nonneg; lia. }
  assert (Hb : 0 < inject_Z b) by now apply inject_Z_pos.
  now apply cancel_le.
Qed.

Lemma scaled_lt z :
  (a * 2 ^ Z.max 0 (- z) < b * 2 ^ Z.max 0 z)%Z <-> q < 2 ^ z.
Proof.
  rewrite Zlt_Qlt, !inject_Z_mult, (pow2_split z), q_spec.
  assert (Hp : 0 < inject_Z (2 ^ Z.max 0 (- z))).
  { apply inject_Z_pos. apply Z.pow_pos_nonneg; lia. }
  assert (Hb : 0 < inject_Z b) by now apply inject_Z_pos.
  now apply cancel_lt.
Qed.

Lemma log2_bounds c :
  (0 < c)%Z -> 2 ^ Z.log2 c <= inject_Z c /\ inject_Z c < 2 ^ (Z.log2 c + 1).
Proof.
  intros Hc. destruct (Z.log2_spec c Hc) as [Hlo Hhi].
  pose proof (Z.log2_nonneg c) as Hn.
  rewrite <- !pow2_inject by lia. rewrite <- Zle_Qle, <- Zlt_Qlt.
  replace (Z.log2 c + 1)%Z with (Z.succ (Z.log2 c)) by lia. auto.
Qed.

Lemma leading_exponent_spec :
  2 ^ leading_exponent a b <= q /\ q < 2 ^ (leading_exponent a b + 1).
Proof.
  unfold leading_exponent.
  set (s := (Z.log2 a - Z.log2 b)%Z).
  destruct (log2_bounds a a_pos) as [Ha1 Ha2].
  destruct (log2_bounds b b_pos) as [Hb1 Hb2].
  pose proof q_spec as Hq. pose proof q_pos as Hq0.
  assert (HB : 0 < inject_Z b) by now apply inject_Z_pos.
  assert (Hlo : 2 ^ (s - 1) <= q).
  { assert (E : 2 ^ Z.log2 a == 2 ^ (s - 1) * 2 ^ (Z.log2 b + 1)).
    { rewrite <- pow2_add. unfold s.
      now replace (Z.log2 a - Z.log2 b - 1 + (Z.log2 b + 1))%Z
        with (Z.log2 a) by lia. }
    pose proof (pow2_pos (s - 1)) as Ht.
    rewrite E, Hq in Ha1.
    destruct (Qlt_le_dec q (2 ^ (s - 1))) as [Hlt|]; [|assumption].
    exfalso. nra. }
  assert (Hhi : q < 2 ^ (s + 1)).
  { assert (E : 2 ^ (Z.log2 a + 1) == 2 ^ (s + 1) * 2 ^ Z.log2 b).
    { rewrite <- pow2_add. unfold s.
      now replace (Z.log2 a - Z.log2 b + 1 + Z.log2 b)%Z
        with (Z.log2 a + 1)%Z by lia. }
    pose proof (pow2_pos (s + 1)) as Ht.
    rewrite E, Hq in Ha2.
    destruct (Qlt_le_dec q (2 ^ (s + 1))) as [|Hge]; [assumption|].
    exfalso. nra. }
  destruct (b * 2 ^ Z.max 0 s <=? a * 2 ^ Z.max 0 (- s))%Z eqn:E.
  - apply Z.leb_le in E. apply scaled_le in E. auto.
  - apply Z.leb_gt in E. apply scaled_lt in E.
    replace (s - 1 + 1)%Z with s by lia. auto.
Qed.

Local Abbreviation e := (ulp_exponent a b).
Local Abbreviation N := (a * 2 ^ Z.max 0 (- e))%Z.
Local Abbreviation D := (b * 2 ^ Z.max 0 e)%Z.
Local Abbreviation m := (rounded_mantissa a b).

Lemma D_pos : (0 < D)%Z.
Proof.
  apply Z.mul_pos_pos; [assumption|].
  apply Z.pow_pos_nonneg; lia.
Qed.

Lemma scaled_quotient : inject_Z N == q * 2 ^ (- e) * inject_Z D.
Proof.
  rewrite !inject_Z_mult, (pow2_split (- e)), q_spec.
  rewrite Z.opp_involutive. ring.
Qed.

Lemma pow2_cancel z : 2 ^ (- z) * 2 ^ z == 1.
Proof.
  rewrite <- pow2_add. now replace (- z + z)%Z with 0%Z by lia.
Qed.

Lemma grid_error k :
  Qabs (inject_Z k * 2 ^ e - q)
  == inject_Z (Z.abs (k * D - N)) * (2 ^ e / inject_Z D).
Proof.
  assert (HD : 0 < inject_Z D) by (apply inject_Z_pos, D_pos).
  assert (E : inject_Z k * 2 ^ e - q
              == inject_Z (k * D - N) * (2 ^ e / inject_Z D)).
  { unfold Zminus. rewrite inject_Z_plus, inject_Z_opp, inject_Z_mult.
    rewrite scaled_quotient. 
    setoid_replace q with (q * (2 ^ (- e) * 2 ^ e)) at 1
      by (rewrite pow2_cancel; ring).
    field. intros H. rewrite H in HD. discriminate. }
  rewrite E, Qabs_Qmult.
  rewrite (Qabs_pos (2 ^ e / inject_Z D)).
  - reflexivity.
  - apply Qlt_le_weak, Qlt_shift_div_l; [assumption|].
    rewrite Qmult_0_l. apply pow2_pos.
Qed.

Lemma grid_compare k1 k2 :
  (Z.abs (k1 * D - N) <= Z.abs (k2 * D - N))%Z ->
  Qabs (inject_Z k1 * 2 ^ e - q) <= Qabs (inject_Z k2 * 2 ^ e - q).
Proof.
  intros H. rewrite !grid_error. apply Qmult_le_compat_r.
  - now rewrite <- Zle_Qle.
  - apply Qlt_le_weak, Qlt_shift_div_l;
      [apply inject_Z_pos, D_pos|].
    rewrite Qmult_0_l. apply pow2_pos.
Qed.

Lemma mantissa_nearest k :
  Qabs (inject_Z m * 2 ^ e - q) <= Qabs (inject_Z k * 2 ^ e - q).
Proof.
  unfold rounded_mantissa.
  apply grid_compare, round_half_even_nearest, D_pos.
Qed.

Lemma quotient_upper : (N < 2 ^ 53 * D)%Z.
Proof.
  destruct leading_exponent_spec as [_ Hhi].
  assert (Hle : 2 ^ (leading_exponent a b + 1) <= 2 ^ (e + 53)).
  { apply pow2_le. unfold ulp_exponent. lia. }
  assert (HD : 0 < inject_Z D) by (apply inject_Z_pos, D_pos).
  rewrite Zlt_Qlt, scaled_quotient, (inject_Z_mult (2 ^ 53)).
  rewrite (pow2_inject 53) by lia.
  apply Qmult_lt_compat_r; [exact HD|].
  assert (E : 2 ^ 53 == 2 ^ (e + 53) * 2 ^ (- e)).
  { rewrite <- pow2_add. now replace (e + 53 + - e)%Z with 53%Z by lia. }
  rewrite E. apply Qmult_lt_compat_r; [apply pow2_pos|].
  eapply Qlt_le_trans; eassumption.
Qed.

Lemma quotient_lower : (-1074 < e)%Z -> (2 ^ 52 * D <= N)%Z.
Proof.
  intros He. destruct leading_exponent_spec as [Hlo _].
  assert (Hlead : leading_exponent a b = (e + 52)%Z)
    by (unfold ulp_exponent in *; lia).
  rewrite Hlead in Hlo.
  assert (HD : 0 < inject_Z D) by (apply inject_Z_pos, D_pos).
  rewrite Zle_Qle, scaled_quotient, (inject_Z_mult (2 ^ 52)).
  rewrite (pow2_inject 52) by lia.
  apply Qmult_le_compat_r; [|now apply Qlt_le_weak].
  assert (E : 2 ^ 52 == 2 ^ (e + 52) * 2 ^ (- e)).
  { rewrite <- pow2_add. now replace (e + 52 + - e)%Z with 52%Z by lia. }
  rewrite E. apply Qmult_le_compat_r; [exact Hlo|].
  apply Qlt_le_weak, pow2_pos.
Qed.

Lemma normal_quotient : (-1074 < e)%Z -> inject_Z (2 ^ 52) * 2 ^ e <= q.
Proof.
  intros He. destruct leading_exponent_spec as [Hlo _].
  assert (Hlead : leading_exponent a b = (52 + e)%Z)
    by (unfold ulp_exponent in *; lia).
  rewrite Hlead, pow2_add in Hlo. now rewrite (pow2_inject 52) by lia.
Qed.

Lemma mantissa_bounds : (0 <= m <= 2 ^ 53)%Z.
Proof.
  unfold rounded_mantissa.
  apply round_half_even_bounds; [apply D_pos| |apply quotient_upper].
  rewrite Z.mul_0_l. apply Z.mul_nonneg_nonneg; [lia|].
  apply Z.pow_nonneg. lia.
Qed.

Lemma normal_mantissa : (-1074 < e)%Z -> (2 ^ 52 <= m)%Z.
Proof.
  intros He. unfold rounded_mantissa.
  apply (round_half_even_bounds N D (2 ^ 52) (2 ^ 53));
    [apply D_pos|now apply quotient_lower|apply quotient_upper].
Qed.

Lemma nearest_positive M E :
  (Z.abs M < 2 ^ 53)%Z -> (-1074 <= E)%Z ->
  Qabs (inject_Z m * 2 ^ e - q) <= Qabs (inject_Z M * 2 ^ E - q).
Proof.
  intros HM HE. destruct (Z.le_gt_cases e E) as [Hle|Hlt].
  - assert (Eq : inject_Z M * 2 ^ E == inject_Z (M * 2 ^ (E - e)) * 2 ^ e).
    { rewrite inject_Z_mult, (pow2_inject (E - e)) by lia.
      rewrite <- Qmult_assoc, <- pow2_add.
      now replace (E - e + e)%Z with E by lia. }
    rewrite Eq. apply mantissa_nearest.
  - assert (He : (-1074 < e)%Z) by lia.
    pose proof (normal_quotient He) as Hq.
    eapply Qle_trans; [apply (mantissa_nearest (2 ^ 52))|].
    assert (Hd : inject_Z M * 2 ^ E < inject_Z (2 ^ 52) * 2 ^ e).
    { assert (Hv : 2 ^ e == 2 * 2 ^ (e - 1)).
      { change 2 with (2 ^ 1) at 2. rewrite <- pow2_add.
        now replace (1 + (e - 1))%Z with e by lia. }
      assert (Hu : 2 ^ E <= 2 ^ (e - 1)) by (apply pow2_le; lia).
      pose proof (pow2_pos E) as Hu0.
      assert (HM' : inject_Z M < inject_Z (2 ^ 53))
        by (rewrite <- Zlt_Qlt; lia).
      change (inject_Z (2 ^ 53)) with (2 * inject_Z (2 ^ 52)) in HM'.
      assert (H52 : 0 < inject_Z (2 ^ 52)) by reflexivity.
      rewrite Hv. now apply below_grid. }
    rewrite (Qabs_neg (inject_Z (2 ^ 52) * 2 ^ e - q)) by lra.
    rewrite (Qabs_neg (inject_Z M * 2 ^ E - q)) by lra.
    lra.
Qed.

Lemma result_binary64 :
  ~ ((0 <= e)%Z /\ (2 ^ 1024 <= m * 2 ^ e)%Z) ->
  binary64 (inject_Z m * 2 ^ e).
Proof.
  intros Hfit. pose proof mantissa_bounds as [Hm0 Hm1].
  assert (He0 : (-1074 <= e)%Z) by (unfold ulp_exponent; lia).
  assert (Hbig : forall lo x, (0 < lo)%Z -> (lo <= m)%Z -> (x <= e)%Z ->
                   (0 <= x)%Z -> (lo * 2 ^ x <= m * 2 ^ e)%Z).
  { intros lo x Hlo Hlm Hx Hx0.
    apply Z.mul_le_mono_nonneg; [lia|assumption| |].
    - apply Z.pow_nonneg. lia.
    - apply Z.pow_le_mono_r; lia. }
  destruct (Z.eq_dec m (2 ^ 53)) as [Heq|Hne].
  - exists (2 ^ 52)%Z, (e + 1)%Z. split; [reflexivity|]. split.
    + split; [lia|].
      destruct (Z.le_gt_cases (e + 1) 971) as [|Hgt]; [assumption|].
      exfalso. apply Hfit. split; [lia|].
      change (2 ^ 1024)%Z with (2 ^ 53 * 2 ^ 971)%Z.
      apply Hbig; lia.
    + rewrite Heq, pow2_add.
      change (inject_Z (2 ^ 53)) with (inject_Z (2 ^ 52) * 2 ^ 1). ring.
  - exists m, e. split; [lia|]. split; [|reflexivity].
    split; [assumption|].
    destruct (Z.le_gt_cases e 971) as [|Hgt]; [assumption|].
    exfalso. apply Hfit. split; [lia|].
    change (2 ^ 1024)%Z with (2 ^ 52 * 2 ^ 972)%Z.
    apply Hbig; try lia. apply normal_mantissa. lia.
Qed.

End Positive.

Lemma binary64_opp x : binary64 x -> binary64 (- x).
Proof.
  intros (M & E & HM & HE & Hx). exists (- M)%Z, E.
  split; [lia|]. split; [assumption|].
  rewrite Hx, inject_Z_opp. ring.
Qed.

Lemma binary64_0 : binary64 0.
Proof. exists 0%Z, 0%Z. repeat split; try lia; reflexivity. Qed.

Lemma quotient_spec a b :
  (0 < b)%Z -> inject_Z a == inject_Z a / inject_Z b * inject_Z b.
Proof.
  intros Hb. field. intros H.
  pose proof (inject_Z_pos b Hb) as Hp. rewrite H in Hp. discriminate.
Qed.

Lemma int_true_divide_positive a b :
  (0 < a)%Z -> (0 < b)%Z ->
  int_true_divide a b = inr OverflowError \/
  exists p,
    int_true_divide a b = inl p /\ binary64 p /\
    forall d, binary64 d ->
      Qabs (p - inject_Z a / inject_Z b) <= Qabs (d - inject_Z a / inject_Z b).
Proof.
  intros Ha Hb. unfold int_true_divide.
  assert (Hb0 : (b =? 0)%Z = false) by (apply Z.eqb_neq; lia).
  assert (Ha0 : (a =? 0)%Z = false) by (apply Z.eqb_neq; lia).
  rewrite Hb0, Ha0, (Z.abs_eq a), (Z.abs_eq b) by lia.
  rewrite (Z.sgn_pos a), (Z.sgn_pos b) by lia.
  destruct ((0 <=? ulp_exponent a b)%Z
            && (2 ^ 1024 <=? rounded_mantissa a b * 2 ^ ulp_exponent a b)%Z)
    eqn:Hov; [now left|right].
  eexists. split; [reflexivity|].
  replace (1 * 1 * rounded_mantissa a b)%Z with (rounded_mantissa a b) by lia.
  split.
  - apply (result_binary64 a b Ha Hb _ (quotient_spec a b Hb)).
    intros [H1 H2]. apply Z.leb_le in H1, H2.
    rewrite H1, H2 in Hov. discriminate.
  - intros d (M & E & HM & HE & Hd). rewrite Hd.
    apply (nearest_positive a b Ha Hb _ (quotient_spec a b Hb)); lia.
Qed.

Lemma binary64_eq x y : x == y -> binary64 x -> binary64 y.
Proof.
  intros Hxy (M & E & HM & HE & Hx). exists M, E.
  repeat split; try assumption; try lia. now rewrite <- Hxy.
Qed.

Lemma nearest_opp P x d :
  Qabs (P - x) <= Qabs (- d - x) -> Qabs (- P - - x) <= Qabs (d - - x).
Proof.
  intros H.
  setoid_replace (- P - - x) with (- (P - x)) by ring.
  setoid_replace (d - - x) with (- (- d - x)) by ring.
  now rewrite !Qabs_opp.
Qed.

Lemma int_true_divide_nearest a b :
  (0 < b)%Z ->
  int_true_divide a b = inr OverflowError \/
  exists p,
    int_true_divide a b = inl p /\ binary64 p /\
    forall d, binary64 d ->
      Qabs (p - inject_Z a / inject_Z b) <= Qabs (d - inject_Z a / inject_Z b).
Proof.
  intros Hb.
  destruct (Z.lt_trichotomy a 0) as [Hneg|[->|Hpos]].
  - destruct (int_true_divide_positive (- a) b ltac:(lia) Hb)
      as [Hov|(p & Hp & Hbin & Hnear)];
      unfold int_true_divide in *;
      rewrite Z.abs_opp in *;
      assert (H1 : (- a =? 0)%Z = false) by (apply Z.eqb_neq; lia);
      assert (H2 : (a =? 0)%Z = false) by (apply Z.eqb_neq; lia);
      rewrite H1 in *; rewrite H2;
      destruct (b =? 0)%Z; try discriminate;
      destruct ((0 <=? ulp_exponent (Z.abs a) (Z.abs b))%Z
                && (2 ^ 1024 <=? rounded_mantissa (Z.abs a) (Z.abs b)
                               * 2 ^ ulp_exponent (Z.abs a) (Z.abs b))%Z);
      try discriminate; [now left|right].
    injection Hp as <-. eexists. split; [reflexivity|].
    assert (Hopp :
      inject_Z (Z.sgn a * Z.sgn b * rounded_mantissa (Z.abs a) (Z.abs b))
        * 2 ^ ulp_exponent (Z.abs a) (Z.abs b)
      == - (inject_Z (Z.sgn (- a) * Z.sgn b
                      * rounded_mantissa (Z.abs a) (Z.abs b))
            * 2 ^ ulp_exponent (Z.abs a) (Z.abs b))).
    { rewrite Z.sgn_opp, !Z.mul_opp_l, inject_Z_opp. ring. }
    assert (Hq : inject_Z a / inject_Z b == - (inject_Z (- a) / inject_Z b)).
    { rewrite inject_Z_opp. field. intros H.
      pose proof (inject_Z_pos b Hb) as Hp. rewrite H in Hp. discriminate. }
    split.
    + eapply binary64_eq; [symmetry; exact Hopp|]. now apply binary64_opp.
    + intros d Hd. rewrite Hopp, Hq. apply nearest_opp.
      apply Hnear. now apply binary64_opp.
  - right. exists 0. split; [|split].
    + unfold int_true_divide.
      assert (Hb0 : (b =? 0)%Z = false) by (apply Z.eqb_neq; lia).
      now rewrite Hb0.
    + apply binary64_0.
    + intros d _. setoid_replace (0 - inject_Z 0 / inject_Z b) with 0
        by (unfold Qdiv; ring).
      apply Qabs_nonneg.
  - now apply int_true_divide_positive.
Qed.

Lemma int_true_divide_overflow a b :
  (0 < b)%Z ->
  int_true_divide a b = inr OverflowError ->
  (2 ^ 1023 * b <= Z.abs a)%Z.
Proof.
  intros Hb. unfold int_true_divide.
  assert (Hb0 : (b =? 0)%Z = false) by (apply Z.eqb_neq; lia).
  rewrite Hb0, (Z.abs_eq b) by lia.
  destruct (a =? 0)%Z eqn:Ha0; [discriminate|]. apply Z.eqb_neq in Ha0.
  assert (Ha : (0 < Z.abs a)%Z) by lia.
  destruct ((0 <=? ulp_exponent (Z.abs a) b)%Z
            && (2 ^ 1024 <=? rounded_mantissa (Z.abs a) b
                           * 2 ^ ulp_exponent (Z.abs a) b)%Z) eqn:Hov;
    [|discriminate].
  intros _. apply andb_prop in Hov as [He Hm].
  apply Z.leb_le in He, Hm.
  pose proof (mantissa_bounds _ _ Ha Hb _ (quotient_spec (Z.abs a) b Hb))
    as [Hm0 Hm53].
  assert (He971 : (971 <= ulp_exponent (Z.abs a) b)%Z).
  { destruct (Z.le_gt_cases 971 (ulp_exponent (Z.abs a) b)) as [|Hlt];
      [assumption|exfalso].
    assert (H970 : (2 ^ ulp_exponent (Z.abs a) b <= 2 ^ 970)%Z)
      by (apply Z.pow_le_mono_r; lia).
    assert (Hpos : (0 < 2 ^ ulp_exponent (Z.abs a) b)%Z)
      by (apply Z.pow_pos_nonneg; lia).
    assert (Hprod : (rounded_mantissa (Z.abs a) b
                     * 2 ^ ulp_exponent (Z.abs a) b <= 2 ^ 53 * 2 ^ 970)%Z).
    { apply Z.mul_le_mono_nonneg; lia. }
    change (2 ^ 53 * 2 ^ 970)%Z with (2 ^ 1023)%Z in Hprod.
    assert ((2 ^ 1023 < 2 ^ 1024)%Z) by reflexivity. lia. }
  destruct (leading_exponent_spec _ _ Ha Hb _ (quotient_spec (Z.abs a) b Hb))
    as [Hlo _].
  assert (Hlead : (1023 <= leading_exponent (Z.abs a) b)%Z)
    by (unfold ulp_exponent in He971; lia).
  assert (Hq : 2 ^ 1023 <= inject_Z (Z.abs a) / inject_Z b).
  { eapply Qle_trans; [|exact Hlo]. now apply pow2_le. }
  rewrite Zle_Qle, inject_Z_mult, (pow2_inject 1023) by lia.
  rewrite (quotient_spec (Z.abs a) b Hb) at 1.
  apply Qmult_le_compat_r; [exact Hq|].
  apply Qlt_le_weak, inject_Z_pos, Hb.
Qed.


Lemma binary64_1 : binary64 1.
Proof. exists 1%Z, 0%Z. repeat split; try lia; reflexivity. Qed.

Lemma binary64_below_1 : binary64 (1 - 2 ^ (-53)).
Proof.
  exists (2 ^ 53 - 1)%Z, (-53)%Z. repeat split; try lia; try reflexivity.
Qed.

Lemma nearest_in_unit_interval p q :
  (forall d, binary64 d -> Qabs (p - q) <= Qabs (d - q)) ->
  0 <= q -> q < 1 ->
  0 <= p <= 1 /\ (q <= 1 - 2 ^ (-53) -> p < 1).
Proof.
  intros Hnear Hq0 Hq1.
  pose proof (Hnear 0 binary64_0) as H0.
  pose proof (Hnear 1 binary64_1) as H1.
  pose proof (Hnear _ binary64_below_1) as H2.
  rewrite (Qabs_neg (0 - q)) in H0 by lra.
  rewrite (Qabs_pos (1 - q)) in H1 by lra.
  assert (Hp0 : 0 <= p).
  { destruct (Qlt_le_dec p 0) as [Hlt|]; [|assumption].
    rewrite (Qabs_neg (p - q)) in H0 by lra. lra. }
  assert (Hp1 : p <= 1).
  { destruct (Qlt_le_dec 1 p) as [Hlt|]; [|assumption].
    rewrite (Qabs_pos (p - q)) in H1 by lra. lra. }
  split; [auto|]. intros Hq.
  destruct (Qlt_le_dec p 1) as [|Hge]; [assumption|exfalso].
  rewrite (Qabs_pos (p - q)) in H2 by lra.
  rewrite (Qabs_pos (1 - 2 ^ (-53) - q)) in H2 by lra.
  assert (0 < 2 ^ (-53)) by reflexivity. lra.
Qed.

End Binary64Rounding.

Set Implicit Arguments.

(** [int_true_divide] against the division of the kernel's binary64 floats,
    on ints that are floats themselves. *)
Example int_true_divide_agrees_with_floats :
  forallb agrees_with_float_division
    [ (1, 49); (48, 49); (1, 3); (2, 3); (7, 8); (0, 5); (-5, 7); (3, -7);
      (5, 10); (123456789, 1000); (1, 9007199254740991);
      (9007199254740991, 9007199254740992) ] = true.
Proof. vm_compute. reflexivity. Qed.

Example int_true_divide_1_49 :
  int_true_divide 1 49 = inl (inject_Z 5882252574524729 * 2 ^ (-58))%Q.
Proof. vm_compute. reflexivity. Qed.

Example int_true_divide_errors :
  int_true_divide 1 0 = inr ZeroDivisionError /\
  int_true_divide (2 ^ 1024) 1 = inr OverflowError /\
  int_true_divide (2 ^ 1024 - 2 ^ 970) 1 = inr OverflowError /\
  int_true_divide (2 ^ 1024 - 2 ^ 970 - 1) 1
    = inl (inject_Z (2 ^ 53 - 1) * 2 ^ 971)%Q.
Proof. repeat split; vm_compute; reflexivity. Qed.

(** Quotients below the least normal number: the mantissa has fewer bits,
    a tie goes to the even mantissa, and half the least subnormal or less
    gives 0. *)
Example int_true_divide_subnormal :
  int_true_divide 3 (2 ^ 1075) = inl (inject_Z 2 * 2 ^ (-1074))%Q /\
  int_true_divide 1 (2 ^ 1074) = inl (inject_Z 1 * 2 ^ (-1074))%Q /\
  int_true_divide 1 (2 ^ 1075) = inl (inject_Z 0 * 2 ^ (-1074))%Q.
Proof. repeat split; vm_compute; reflexivity. Qed.

(** The cursor on the second of 49 pages: the value is the double nearest
    to 1/49, not 1/49 itself. *)
Example currentProgress_1_of_49 :
  let m := mkModel (repeat (simple_page "A") 49) 1 [0]
             [currentPageIndexChanged] [] in
  exists p,
    currentProgress m = inl p /\
    (p == inject_Z 5882252574524729 * 2 ^ (-58))%Q /\
    ~ (p * 49 == 1)%Q.
Proof.
  eexists. split; [vm_compute; reflexivity|].
  split; [reflexivity|]. intros H. vm_compute in H. discriminate.
Qed.



(** ** Indexing errors *)

(** C10, as the code has it.  [goToNextPage] subscripts the page list without
    a check: when the starting index is outside [-len, len), which is every
    index when the list is empty, the call raises [IndexError] before
    anything else happens; when it is inside, an index from [-len] to [-1]
    counting from the end as Python does, no call raises anything. *)
Theorem goToNextPage_IndexError from_index m :
  let i := start_index from_index m in
  (_items m = [] ->
     forall fuel, goToNextPage (S fuel) from_index m = Raised IndexError m) /\
  (i < - len (_items m) \/ len (_items m) <= i ->
     forall fuel, goToNextPage (S fuel) from_index m = Raised IndexError m) /\
  (- len (_items m) <= i < len (_items m) ->
     forall fuel e m', goToNextPage fuel from_index m <> Raised e m').
Proof.
  intros i.
  assert (Hout : i < - len (_items m) \/ len (_items m) <= i ->
     forall fuel, goToNextPage (S fuel) from_index m = Raised IndexError m).
  { intros Hi fuel. unfold goToNextPage. fold (start_index from_index m).
    fold i. simpl. rewrite round_index_error; [reflexivity|].
    now apply subscript_None_iff. }
  repeat split.
  - intros Hempty. apply Hout. rewrite Hempty. unfold len. simpl. lia.
  - exact Hout.
  - intros Hi fuel e m' H. unfold goToNextPage in H.
    fold (start_index from_index m) in H. fold i in H.
    apply loop_sound in H; [|discriminate].
    destruct H as (v & lines & _ & Hw & Hv).
    destruct v; simpl in Hv; try discriminate.
    now apply (walk_no_index_error Hi).
Qed.

Lemma goToNextPage_IndexError_witness :
  goToNextPage 1 (Some 3) (fresh pages_hidden_B)
    = Raised IndexError (fresh pages_hidden_B) /\
  goToNextPage 2 None (fresh pages_hidden_B)
    <> Raised IndexError (fresh pages_hidden_B).
Proof.
  split.
  - apply (proj1 (proj2 (goToNextPage_IndexError (Some 3)
                           (fresh pages_hidden_B)))).
    right. unfold start_index, len. simpl. lia.
  - apply (proj2 (proj2 (goToNextPage_IndexError None
                           (fresh pages_hidden_B)))).
    unfold start_index, len. simpl. lia.
Defined.

(** C10, as stated, fails: -1 is outside [0, 1), and the call started there
    on a one-page list reads the last page and returns. *)
Lemma negative_from_index_returns :
  let m := fresh [simple_page "A"] in
  ~ (0 <= -1 < len (_items m)) /\
  forall fuel, goToNextPage (S fuel) (Some (-1)) m = Returned m.
Proof.
  split; [lia|]. intros fuel. reflexivity.
Qed.

(** ** Forward navigation *)

Lemma moved_to_with_log c m lines m' :
  moved_to c (with_log m lines) m' -> moved_to c m m'.
Proof. intros H. exact H. Qed.

Lemma conclude_forward_result items i v m lines m' :
  walk items i v ->
  _items m = items ->
  conclude v (with_log m lines) = Returned m' ->
  forward_result m m'.
Proof.
  intros Hw Hitems Hc. destruct v; simpl in Hc; try discriminate.
  - injection Hc as <-. left. now repeat split.
  - injection Hc as <-. right; left. repeat split.
    unfold atEnd, resetState, emit. simpl. now rewrite <- app_assoc.
  - injection Hc as <-.
    destruct (Z.eq_dec next_page_index (_current_page_index m)) as [->|Hne].
    + left. change (_current_page_index m)
        with (_current_page_index (with_log m lines)).
      rewrite _setCurrentPageIndex_same. apply unchanged_with_log.
    + right; right.
      pose proof (@_setCurrentPageIndex_other next_page_index
                    (with_log m lines) Hne) as Hm.
      assert (Hcur : _current_page_index
                (_setCurrentPageIndex next_page_index (with_log m lines))
              = next_page_index) by apply Hm.
      rewrite Hcur. repeat split; try apply Hm; try assumption.
      rewrite Hitems. eapply walk_found_shown; eassumption.
Qed.

Lemma goToNextPage_forward_result fuel from_index m m' :
  goToNextPage fuel from_index m = Returned m' -> forward_result m m'.
Proof.
  unfold goToNextPage. fold (start_index from_index m). intros H.
  apply loop_sound in H; [|discriminate].
  destruct H as (v & lines & _ & Hw & Hv).
  eapply conclude_forward_result; eauto.
Qed.

Lemma goToPage_forward_result fuel page_id m m' :
  goToPage fuel page_id m = Returned m' -> forward_result m m'.
Proof.
  unfold goToPage.
  destruct (getPageIndexById (_items m) page_id) as [idx|].
  - destruct (_shouldPageBeShown (_items m) idx) eqn:Hshow.
    + intros [= <-].
      destruct (Z.eq_dec idx (_current_page_index m)) as [->|Hne].
      * rewrite _setCurrentPageIndex_same. left. now repeat split.
      * right; right.
        pose proof (@_setCurrentPageIndex_other idx m Hne) as Hm.
        assert (Hcur : _current_page_index (_setCurrentPageIndex idx m) = idx)
          by apply Hm.
        rewrite Hcur. repeat split; try apply Hm; assumption.
    + apply goToNextPage_forward_result.
  - intros [= <-]. left. now repeat split.
Qed.

Lemma goToNextPage_reaches from_index m v :
  walk (_items m) (start_index from_index m) v ->
  exists fuel lines,
    debug_lines lines /\
    forall fuel', (fuel <= fuel')%nat ->
      goToNextPage fuel' from_index m = conclude v (with_log m lines).
Proof.
  intros Hw.
  destruct (loop_complete Hw m eq_refl) as (fuel & lines & Hl & Hloop).
  exists fuel, lines. split; [exact Hl|]. intros fuel' Hf.
  unfold goToNextPage. fold (start_index from_index m). now apply Hloop.
Qed.

Lemma found_effect c m lines :
  (c <> _current_page_index m ->
     moved_to c m (_setCurrentPageIndex c (with_log m lines))) /\
  (c = _current_page_index m ->
     unchanged m (_setCurrentPageIndex c (with_log m lines))).
Proof.
  split.
  - intros Hne. apply moved_to_with_log with (lines := lines).
    now apply _setCurrentPageIndex_other.
  - intros ->. change (_current_page_index m)
      with (_current_page_index (with_log m lines)).
    rewrite _setCurrentPageIndex_same. apply unchanged_with_log.
Qed.

(** C7, as the code has it.  When the walk of [goToNextPage] stops at a
    candidate whose page is shown, the call returns; if the candidate differs
    from the cursor, the cursor is pushed on the stack, the candidate becomes
    the cursor and [currentPageIndexChanged] is emitted; if the candidate is
    the cursor itself, cursor, stack and signals stay as they were. *)
Theorem goToNextPage_found from_index m c :
  walk (_items m) (start_index from_index m) (VFound c) ->
  exists fuel, forall fuel', (fuel <= fuel')%nat ->
    exists m',
      goToNextPage fuel' from_index m = Returned m' /\
      (c <> _current_page_index m -> moved_to c m m') /\
      (c = _current_page_index m -> unchanged m m').
Proof.
  intros Hw.
  destruct (goToNextPage_reaches from_index m Hw) as (fuel & lines & _ & Hgo).
  exists fuel. intros fuel' Hf.
  exists (_setCurrentPageIndex c (with_log m lines)).
  split; [now apply Hgo|apply found_effect].
Qed.

Lemma goToNextPage_found_witness :
  walk pages_ABCD 1 (VFound 3) /\
  exists fuel, forall fuel', (fuel <= fuel')%nat ->
    exists m',
      goToNextPage fuel' (Some 1) (fresh pages_ABCD) = Returned m' /\
      (3 <> 0 -> moved_to 3 (fresh pages_ABCD) m') /\
      (3 = 0 -> unchanged (fresh pages_ABCD) m').
Proof.
  assert (Hw : walk pages_ABCD 1 (VFound 3)).
  { apply walk_found; [reflexivity|unfold len; simpl; lia|reflexivity]. }
  split; [exact Hw|].
  apply (@goToNextPage_found (Some 1) (fresh pages_ABCD) 3 Hw).
Defined.

(** C7, as stated, fails when the candidate is the cursor: a page that names
    itself as successor is found by the walk, and nothing is pushed. *)
Lemma self_successor_not_pushed :
  walk pages_self_next 0 (VFound 0) /\
  forall fuel,
    goToNextPage (S fuel) None (fresh pages_self_next)
      = Returned (fresh pages_self_next) /\
    ~ moved_to 0 (fresh pages_self_next) (fresh pages_self_next).
Proof.
  split.
  - apply walk_found; [reflexivity|unfold len; simpl; lia|reflexivity].
  - intros fuel. split; [reflexivity|].
    intros (_ & _ & Hstack & _). discriminate.
Qed.

(** ** Unknown page ids *)

(** C6. When the walk of [goToNextPage] meets a [next_page_id] that no page
    carries, the call returns with the page list, the cursor, the stack and
    the emitted signals as they were, and the last line logged is the error;
    [goToPage] with an id that no page carries does the same. *)
Theorem unknown_page_id_leaves_state m :
  (forall from_index page_id,
      walk (_items m) (start_index from_index m) (VUnknownId page_id) ->
      exists fuel, forall fuel', (fuel <= fuel')%nat ->
        exists m' lines,
          goToNextPage fuel' from_index m = Returned m' /\
          unchanged m m' /\
          debug_lines lines /\
          logged m' =
            logged m ++ lines ++
              [("e", "Cannot find page with ID [" ++ page_id ++ "]")%string]) /\
  (forall page_id,
      getPageIndexById (_items m) page_id = None ->
      forall fuel,
        exists m',
          goToPage fuel page_id m = Returned m' /\
          unchanged m m' /\
          logged m' = logged m ++ [("e", "Cannot find page with ID [None]")%string]).
Proof.
  split.
  - intros from_index page_id Hw.
    destruct (goToNextPage_reaches from_index m Hw)
      as (fuel & lines & Hl & Hgo).
    exists fuel. intros fuel' Hf. eexists. exists lines. split.
    + rewrite (Hgo fuel' Hf). reflexivity.
    + repeat split; [exact Hl|]. simpl. now rewrite <- app_assoc.
  - intros page_id Hnone fuel. eexists. split.
    + unfold goToPage. rewrite Hnone. reflexivity.
    + now repeat split.
Qed.

Lemma unknown_page_id_leaves_state_witness :
  let m := fresh [simple_page "A"; mkPage "B" "" (Some "Z") None] in
  (exists fuel, forall fuel', (fuel <= fuel')%nat ->
     exists m' lines,
       goToNextPage fuel' (Some 1) m = Returned m' /\
       unchanged m m' /\
       debug_lines lines /\
       logged m' =
         logged m ++ lines ++ [("e", "Cannot find page with ID [Z]")%string]) /\
  (forall fuel,
     exists m',
       goToPage fuel "Q" m = Returned m' /\
       unchanged m m' /\
       logged m' = logged m ++ [("e", "Cannot find page with ID [None]")%string]).
Proof.
  intros m. split.
  - apply (proj1 (unknown_page_id_leaves_state m) (Some 1) "Z"%string).
    eapply walk_unknown; reflexivity.
  - apply (proj2 (unknown_page_id_leaves_state m) "Q"%string). reflexivity.
Defined.

(** ** Hidden pages *)

Lemma fresh_cursor_invariant items : cursor_invariant (fresh items).
Proof. split; [now left|constructor]. Qed.






(** ** Jumping to a page *)

Lemma successor_no_next_id items i c :
  Forall (fun p => truthy (next_page_id p) = None) items ->
  successor items i = Some c -> c = i + 1.
Proof.
  intros Hall. unfold successor.
  destruct (subscript items i) as [p|] eqn:Hp; [|discriminate].
  apply subscript_In in Hp.
  rewrite Forall_forall in Hall. rewrite (Hall p Hp).
  now intros [= <-].
Qed.

Lemma walk_found_after items i c :
  Forall (fun p => truthy (next_page_id p) = None) items ->
  walk items i (VFound c) -> i < c.
Proof.
  intros Hall H. remember (VFound c) as v eqn:Ev.
  induction H; try discriminate.
  - injection Ev as ->. apply (successor_no_next_id _ Hall) in H. lia.
  - apply skip_step_spec in H as [H _].
    apply (successor_no_next_id _ Hall) in H.
    specialize (IHwalk Ev). lia.
Qed.

(** C5, as the code has it.  [goToPage] with an id that resolves to a shown
    page other than the current one pushes the cursor and sets it to that
    page, with no walk; on the current page it changes nothing.  With an id
    that resolves to a hidden page it is [goToNextPage] started from that
    index: a page found by that walk is shown, is not the target, and comes
    after the target when no page has a [next_page_id]. *)
Theorem goToPage_resolved m page_id page_index :
  getPageIndexById (_items m) page_id = Some page_index ->
  (_shouldPageBeShown (_items m) page_index = true ->
     forall fuel,
       goToPage fuel page_id m = Returned (_setCurrentPageIndex page_index m) /\
       (page_index <> _current_page_index m ->
          moved_to page_index m (_setCurrentPageIndex page_index m)) /\
       (page_index = _current_page_index m ->
          _setCurrentPageIndex page_index m = m)) /\
  (_shouldPageBeShown (_items m) page_index = false ->
     (forall fuel,
        goToPage fuel page_id m = goToNextPage fuel (Some page_index) m) /\
     (forall c,
        walk (_items m) page_index (VFound c) ->
        _shouldPageBeShown (_items m) c = true /\
        c <> page_index /\
        (Forall (fun p => truthy (next_page_id p) = None) (_items m) ->
           page_index < c) /\
        exists fuel, forall fuel', (fuel <= fuel')%nat ->
          exists m',
            goToPage fuel' page_id m = Returned m' /\
            (c <> _current_page_index m -> moved_to c m m') /\
            (c = _current_page_index m -> unchanged m m'))).
Proof.
  intros Hid. split; intros Hshow.
  - intros fuel. split; [|split].
    + unfold goToPage. now rewrite Hid, Hshow.
    + apply _setCurrentPageIndex_other.
    + intros ->. apply _setCurrentPageIndex_same.
  - assert (Hgo : forall fuel,
               goToPage fuel page_id m = goToNextPage fuel (Some page_index) m).
    { intros fuel. unfold goToPage. now rewrite Hid, Hshow. }
    split; [exact Hgo|]. intros c Hw.
    pose proof (walk_found_shown Hw) as Hc.
    split; [exact Hc|]. split; [congruence|]. split.
    + intros Hall. eapply walk_found_after; eassumption.
    + destruct (goToNextPage_reaches (Some page_index) m Hw)
        as (fuel & lines & _ & Hfuel).
      exists fuel. intros fuel' Hf.
      exists (_setCurrentPageIndex c (with_log m lines)).
      rewrite Hgo. split; [now apply Hfuel|apply found_effect].
Qed.

Lemma goToPage_resolved_witness :
  getPageIndexById (_items (fresh pages_hidden_B)) "B" = Some 1 /\
  (forall fuel,
     goToPage fuel "B" (fresh pages_hidden_B)
     = goToNextPage fuel (Some 1) (fresh pages_hidden_B)) /\
  (forall fuel,
     goToPage fuel "C" (fresh pages_hidden_B)
     = Returned (_setCurrentPageIndex 2 (fresh pages_hidden_B))).
Proof.
  split; [reflexivity|]. split.
  - apply (proj1 (proj2 (@goToPage_resolved (fresh pages_hidden_B)
                           "B"%string 1 eq_refl) eq_refl)).
  - intros fuel.
    apply (proj1 (@goToPage_resolved (fresh pages_hidden_B)
                    "C"%string 2 eq_refl) eq_refl fuel).
Defined.

(** C5, as stated, fails twice.  A jump to the shown page that is already
    current pushes nothing.  A jump to a hidden page can run to the end of
    the list, and the reset then puts the cursor on page 0, here the hidden
    target itself. *)
Lemma goToPage_without_push_or_onto_hidden :
  (getPageIndexById [simple_page "A"] "A" = Some 0 /\
   _shouldPageBeShown [simple_page "A"] 0 = true /\
   forall fuel,
     goToPage fuel "A" (fresh [simple_page "A"])
       = Returned (fresh [simple_page "A"]) /\
     ~ moved_to 0 (fresh [simple_page "A"]) (fresh [simple_page "A"])) /\
  (let m := mkModel pages_hidden_ends 1 [0] [currentPageIndexChanged] [] in
   goToPage 1 "B" (fresh pages_hidden_ends) = Returned m /\
   getPageIndexById pages_hidden_ends "A" = Some 0 /\
   _shouldPageBeShown pages_hidden_ends 0 = false /\
   exists m', goToPage 2 "A" m = Returned m' /\ _current_page_index m' = 0).
Proof.
  split.
  - repeat split. intros (_ & _ & Hstack & _). discriminate.
  - repeat split. eexists. split; reflexivity.
Qed.

(** ** A plain sequence: no [next_page_id], no [should_show_function] *)

Section PlainSequence.

Variable items : list Page.
Hypothesis all_plain : Forall plain items.

Lemma plain_successor i :
  0 <= i < len items -> successor items i = Some (i + 1).
Proof.
  intros Hi. unfold successor.
  destruct (@subscript_in_range _ items i) as [p Hp]; [lia|].
  rewrite Hp. apply subscript_In in Hp.
  rewrite Forall_forall in all_plain.
  destruct (all_plain p Hp) as [-> _]. reflexivity.
Qed.

Lemma plain_shown c : _shouldPageBeShown items c = true.
Proof.
  unfold _shouldPageBeShown, getItem.
  destruct (subscript items c) as [p|] eqn:Hp; [|reflexivity].
  apply subscript_In in Hp. rewrite Forall_forall in all_plain.
  destruct (all_plain p Hp) as [_ ->]. reflexivity.
Qed.

Lemma plain_goToNextPage fuel m :
  _items m = items ->
  0 <= _current_page_index m < len items ->
  goToNextPage (S fuel) None m =
    if _current_page_index m + 1 =? len items
    then Returned (atEnd m)
    else Returned (_setCurrentPageIndex (_current_page_index m + 1) m).
Proof.
  intros Hitems Hi. unfold goToNextPage. simpl.
  rewrite (@round_successor _ m (_current_page_index m + 1))
    by (rewrite Hitems; now apply plain_successor).
  rewrite Hitems, plain_shown.
  now destruct (_current_page_index m + 1 =? len items).
Qed.

Lemma plain_run fuel k :
  (k < List.length items)%nat ->
  goToNextPage_times (S fuel) k (fresh items) =
    Returned (mkModel items (Z.of_nat k) (countdown k)
                      (repeat currentPageIndexChanged k) []).
Proof.
  induction k as [|k IH]; intros Hk; [reflexivity|].
  cbn [goToNextPage_times]. rewrite IH by lia. cbn [bindO].
  rewrite plain_goToNextPage; [|reflexivity|unfold len; simpl; lia].
  cbn [_current_page_index].
  destruct (Z.of_nat k + 1 =? len items) eqn:E.
  { apply Z.eqb_eq in E. unfold len in E. lia. }
  unfold _setCurrentPageIndex. cbn [_current_page_index].
  destruct (Z.of_nat k + 1 =? Z.of_nat k) eqn:E'.
  { apply Z.eqb_eq in E'. lia. }
  unfold emit. cbn. f_equal. f_equal.
  - lia.
  - now rewrite <- repeat_cons.
Qed.

Lemma plain_completion fuel n :
  List.length items = S n ->
  goToNextPage_times (S fuel) (S n) (fresh items) =
    Returned (mkModel items 0 []
                (repeat currentPageIndexChanged n
                   ++ [allFinished; currentPageIndexChanged]) []).
Proof.
  intros Hn. cbn [goToNextPage_times]. rewrite plain_run by lia.
  cbn [bindO].
  rewrite plain_goToNextPage; [|reflexivity|unfold len; simpl; lia].
  cbn [_current_page_index].
  destruct (Z.of_nat n + 1 =? len items) eqn:E.
  - unfold atEnd, resetState, emit. cbn. now rewrite <- app_assoc.
  - apply Z.eqb_neq in E. unfold len in E. lia.
Qed.

End PlainSequence.

(** C1. On a non-empty page list in which no page has a [next_page_id] or a
    [should_show_function], calling [goToNextPage] from the fresh state: after
    [k < N] calls the cursor is [k], the stack holds [k-1 .. 0] and only
    [currentPageIndexChanged] was emitted; the [N]-th call emits the one and
    only [allFinished] and resets the cursor to 0. *)
Theorem plain_sequence_completes_once items fuel :
  items <> [] ->
  Forall plain items ->
  (forall k, (k < List.length items)%nat ->
     exists m,
       goToNextPage_times (S fuel) k (fresh items) = Returned m /\
       _current_page_index m = Z.of_nat k /\
       _previous_page_indices_stack m = countdown k /\
       emitted m = repeat currentPageIndexChanged k /\
       count_occ Signal_eq_dec (emitted m) allFinished = 0%nat) /\
  (exists m,
     goToNextPage_times (S fuel) (List.length items) (fresh items)
       = Returned m /\
     _current_page_index m = 0 /\
     _previous_page_indices_stack m = [] /\
     emitted m = repeat currentPageIndexChanged (List.length items - 1)
                   ++ [allFinished; currentPageIndexChanged] /\
     count_occ Signal_eq_dec (emitted m) allFinished = 1%nat).
Proof.
  intros Hne Hplain. split.
  - intros k Hk. eexists. split; [now apply plain_run|].
    cbn. repeat split.
    apply count_occ_repeat_neq. discriminate.
  - destruct items as [|p rest] eqn:E; [congruence|]. rewrite <- E in *.
    assert (Hn : List.length items = S (List.length rest))
      by (rewrite E; reflexivity).
    eexists. split; [rewrite Hn; now apply plain_completion|].
    cbn [_current_page_index _previous_page_indices_stack emitted].
    repeat split.
    + rewrite Hn. now replace (S (List.length rest) - 1)%nat
        with (List.length rest) by lia.
    + rewrite count_occ_app, count_occ_repeat_neq by discriminate.
      reflexivity.
Qed.

Lemma plain_sequence_completes_once_witness :
  exists m,
    goToNextPage_times 1 3
      (fresh [simple_page "A"; simple_page "B"; simple_page "C"])
      = Returned m /\
    _current_page_index m = 0 /\
    count_occ Signal_eq_dec (emitted m) allFinished = 1%nat.
Proof.
  destruct (@plain_sequence_completes_once
              [simple_page "A"; simple_page "B"; simple_page "C"] 0%nat)
    as [_ (m & Hrun & Hcur & _ & _ & Hcount)].
  - discriminate.
  - repeat constructor.
  - exists m. repeat split; assumption.
Defined.

(** ** Going back *)

Lemma goToPreviousPage_empty m :
  _previous_page_indices_stack m = [] ->
  unchanged m (goToPreviousPage m).
Proof. intros H. unfold goToPreviousPage. rewrite H. now repeat split. Qed.

Lemma goToPreviousPage_pop m top rest :
  _previous_page_indices_stack m = top :: rest ->
  _current_page_index (goToPreviousPage m) = top /\
  _previous_page_indices_stack (goToPreviousPage m) = rest /\
  emitted (goToPreviousPage m) = emitted m ++ [currentPageIndexChanged].
Proof. intros H. unfold goToPreviousPage. rewrite H. now repeat split. Qed.

(** A call that moves the cursor without completing has pushed the old
    cursor. *)
Lemma moving_call_pushes fuel m m' :
  goToNextPage fuel None m = Returned m' ->
  _current_page_index m' <> _current_page_index m ->
  ~ In allFinished (emitted m') ->
  _previous_page_indices_stack m' =
    _current_page_index m :: _previous_page_indices_stack m.
Proof.
  intros Hgo Hcur Hfin.
  destruct (goToNextPage_forward_result _ _ _ Hgo)
    as [(_ & Hsame & _) | [(_ & _ & _ & Hem) | (Hmoved & _)]].
  - congruence.
  - exfalso. apply Hfin. rewrite Hem. apply in_or_app. right. now left.
  - apply Hmoved.
Qed.

Lemma exhausted_stays j :
  forall m,
    _previous_page_indices_stack m = [] ->
    unchanged m (goToPreviousPage_times j m).
Proof.
  induction j as [|j IH]; intros m Hm; [now repeat split|].
  cbn [goToPreviousPage_times].
  destruct (IH m Hm) as (Hi & Hc & Hs & He).
  rewrite Hm in Hs.
  destruct (goToPreviousPage_empty _ Hs) as (Hi' & Hc' & Hs' & He').
  repeat split; congruence.
Qed.

Lemma goToPreviousPage_times_add a b m :
  goToPreviousPage_times (a + b) m
  = goToPreviousPage_times a (goToPreviousPage_times b m).
Proof. induction a as [|a IH]; [reflexivity|]. cbn. now rewrite IH. Qed.

Lemma each_call_moves_retraces fuel items k :
  each_call_moves fuel items k -> retraces fuel items k.
Proof.
  intros Hmoves.
  assert (Hk : exists mk, goToNextPage_times fuel k (fresh items) = Returned mk).
  { destruct k as [|k]; [eexists; reflexivity|].
    destruct (Hmoves k (Nat.lt_succ_diag_r k)) as (m & m' & Hm & Hgo & _).
    exists m'. cbn [goToNextPage_times]. now rewrite Hm. }
  destruct Hk as (mk & Hmk).
  intros j. induction j as [|j IH]; intros Hj.
  - exists mk, mk. rewrite Nat.sub_0_r. now repeat split.
  - destruct (IH ltac:(lia)) as (mk' & mi & Hmk' & Hmi & Hc & Hs).
    assert (mk' = mk) by congruence. subst mk'.
    destruct (Hmoves (k - S j)%nat ltac:(lia))
      as (m & m' & Hm & Hgo & Hcur & Hfin).
    assert (Hmi' : goToNextPage_times fuel (k - j) (fresh items) = Returned m').
    { replace (k - j)%nat with (S (k - S j)) by lia.
      cbn [goToNextPage_times]. now rewrite Hm. }
    assert (mi = m') by congruence. subst mi.
    pose proof (moving_call_pushes _ _ Hgo Hcur Hfin) as Hpush.
    rewrite Hpush in Hs.
    exists mk, m. cbn [goToPreviousPage_times].
    destruct (goToPreviousPage_pop _ Hs) as (Hc' & Hs' & _).
    now repeat split.
Qed.

Lemma plain_each_call_moves items fuel k :
  Forall plain items ->
  (k < List.length items)%nat ->
  each_call_moves (S fuel) items k.
Proof.
  intros Hplain Hk i Hi.
  do 2 eexists. split; [apply plain_run; [assumption|lia]|].
  pose proof (@plain_run items Hplain fuel (S i) ltac:(lia)) as Hrun.
  cbn [goToNextPage_times] in Hrun.
  rewrite plain_run in Hrun by (assumption || lia).
  cbn [bindO] in Hrun. split; [exact Hrun|]. cbn. split; [lia|].
  intros [Hin|Hin]; [discriminate|].
  apply repeat_spec in Hin. discriminate.
Qed.

(** C4, as the code has it.  When each of [k] consecutive calls of
    [goToNextPage] from the fresh state moved the cursor to another index
    without completing (on a plain sequence: whenever [k < N]), [j <= k]
    calls of [goToPreviousPage] bring cursor and stack back to what they were
    after [k - j] calls of [goToNextPage]; after [k] of them the stack is
    empty and any further call leaves cursor, stack and signals alone. *)
Theorem goToPreviousPage_retraces fuel items k :
  each_call_moves fuel items k ->
  retraces fuel items k /\
  exists mk,
    goToNextPage_times fuel k (fresh items) = Returned mk /\
    forall j, (k <= j)%nat ->
      _current_page_index (goToPreviousPage_times j mk) = 0 /\
      _previous_page_indices_stack (goToPreviousPage_times j mk) = [] /\
      emitted (goToPreviousPage_times j mk)
        = emitted (goToPreviousPage_times k mk).
Proof.
  intros Hmoves.
  pose proof (each_call_moves_retraces Hmoves) as Hre.
  split; [exact Hre|].
  destruct (Hre k (Nat.le_refl k)) as (mk & m0 & Hmk & Hm0 & Hc & Hs).
  rewrite Nat.sub_diag in Hm0. cbn in Hm0. injection Hm0 as <-.
  cbn in Hc, Hs.
  exists mk. split; [exact Hmk|]. intros j Hj.
  destruct (Nat.le_exists_sub k j Hj) as (d & -> & _).
  rewrite goToPreviousPage_times_add.
  destruct (exhausted_stays d _ Hs) as (_ & Hc' & Hs' & He').
  repeat split; congruence.
Qed.

Lemma goToPreviousPage_retraces_witness :
  each_call_moves 1 pages_ABCD 2 /\ retraces 1 pages_ABCD 2.
Proof.
  assert (H : each_call_moves 1 pages_ABCD 2).
  { intros i Hi. destruct i as [|[|i]]; [ | |lia];
      (do 2 eexists; split; [reflexivity|]; split; [reflexivity|];
       split; [cbn; discriminate|]; cbn; intuition discriminate). }
  split; [exact H|].
  exact (proj1 (goToPreviousPage_retraces H)).
Defined.

(** C4, as stated, fails at [k = N]: the [N]-th call completes, the reset
    clears the stack, and [goToPreviousPage] no longer leads back to the last
    page. *)
Lemma completion_forgets_history :
  let items := [simple_page "A"; simple_page "B"] in
  Forall plain items /\
  (2 <= List.length items)%nat /\
  forall fuel, ~ retraces (S fuel) items 2.
Proof.
  split; [repeat constructor|]. split; [simpl; lia|].
  intros fuel H.
  destruct (H 1%nat ltac:(lia)) as (mk & mi & E1 & E2 & Hc & _).
  cbn in E1, E2. injection E1 as <-. injection E2 as <-.
  cbn in Hc. discriminate.
Qed.

(** ** Termination of the skip loop *)

Lemma skip_iter_add items a b :
  forall i,
    skip_iter items (a + b) i =
      match skip_iter items a i with
      | Some c => skip_iter items b c
      | None => None
      end.
Proof.
  induction a as [|a IH]; intros i; [reflexivity|].
  cbn [Nat.add skip_iter]. destruct (skip_step items i); auto.
Qed.

Lemma skip_iter_range items k :
  forall i d,
    skip_iter items (S k) i = Some d -> - len items < d < len items.
Proof.
  induction k as [|k IH]; intros i d H; cbn [skip_iter] in H.
  - destruct (skip_step items i) as [c|] eqn:Hc; [|discriminate].
    injection H as <-. eapply skip_step_range; eassumption.
  - destruct (skip_step items i) as [c|] eqn:Hc; [|discriminate].
    eapply IH. cbn [skip_iter]. exact H.
Qed.

Lemma indices_spec items d :
  In d (indices items) <-> - len items <= d < len items.
Proof.
  unfold indices, len. rewrite in_map_iff. split.
  - intros (j & <- & Hj). apply in_seq in Hj. lia.
  - intros Hd. exists (Z.to_nat (d + Z.of_nat (List.length items))).
    split; [lia|]. apply in_seq. lia.
Qed.

Lemma skip_trace_in_iter items n :
  forall i d,
    In d (skip_trace items n i) ->
    exists k, (k < n)%nat /\ skip_iter items (S k) i = Some d.
Proof.
  induction n as [|n IH]; intros i d H; cbn [skip_trace] in H; [contradiction|].
  destruct (skip_step items i) as [c|] eqn:Hc; [|contradiction].
  destruct H as [<-|H].
  - exists 0%nat. split; [lia|]. cbn. now rewrite Hc.
  - destruct (IH _ _ H) as (k & Hk & Hit).
    exists (S k). split; [lia|].
    cbn [skip_iter]. rewrite Hc. exact Hit.
Qed.

Lemma skip_trace_length items n :
  forall i,
    skip_iter items n i <> None -> List.length (skip_trace items n i) = n.
Proof.
  induction n as [|n IH]; intros i H; [reflexivity|].
  cbn [skip_iter] in H. cbn [skip_trace].
  destruct (skip_step items i) as [c|]; [|congruence].
  cbn. now rewrite IH.
Qed.

Section BoundedAcyclic.

Variable items : list Page.
Variable bound : nat.
Hypothesis acyclic :
  forall c k, (k < bound)%nat -> skip_iter items (S k) c <> Some c.

Lemma skip_trace_NoDup n :
  (n <= bound)%nat -> forall i, NoDup (skip_trace items n i).
Proof.
  induction n as [|n IH]; intros Hn i; cbn [skip_trace]; [constructor|].
  destruct (skip_step items i) as [c|]; [|constructor].
  constructor; [|apply IH; lia].
  intros Hin. apply skip_trace_in_iter in Hin as (k & Hk & Hit).
  eapply acyclic; [|exact Hit]. lia.
Qed.

Lemma skip_trace_short n i :
  (n <= bound)%nat ->
  (List.length (skip_trace items n i) <= 2 * List.length items)%nat.
Proof.
  intros Hn.
  replace (2 * List.length items)%nat with (List.length (indices items))
    by (unfold indices; now rewrite length_map, length_seq).
  apply NoDup_incl_length; [now apply skip_trace_NoDup|].
  intros d Hd. apply skip_trace_in_iter in Hd as (k & _ & Hit).
  apply skip_iter_range in Hit. apply indices_spec. lia.
Qed.

End BoundedAcyclic.

Lemma loop_out_of_fuel_trace fuel :
  forall i m,
    goToNextPage_loop fuel i m = OutOfFuel ->
    List.length (skip_trace (_items m) fuel i) = fuel.
Proof.
  induction fuel as [|fuel IH]; intros i m H; [reflexivity|].
  cbn [goToNextPage_loop] in H. cbn [skip_trace].
  destruct (skip_step (_items m) i) as [c|] eqn:Hskip.
  - destruct (round_skip _ _ Hskip) as (line & _ & Hr).
    rewrite Hr in H. apply IH in H. cbn. now rewrite <- H at 2.
  - exfalso.
    destruct (successor_cases (_items m) i)
      as [Hnone | [(p & s & Hp & Hs & Hid) | (c & Hc)]].
    + rewrite (round_index_error _ _ Hnone) in H. discriminate.
    + rewrite (round_unknown _ _ Hp Hs Hid) in H. discriminate.
    + destruct (Z.eq_dec c (len (_items m))) as [Hend|Hend].
      * subst c. rewrite (round_finished _ _ Hc) in H. discriminate.
      * destruct (_shouldPageBeShown (_items m) c) eqn:Hshow.
        -- rewrite (round_found _ _ Hc Hend Hshow) in H. discriminate.
        -- assert (Hs : skip_step (_items m) i = Some c)
             by (apply skip_step_spec; auto).
           congruence.
Qed.

(** Without a hidden cycle of at most [2 * len + 1] skips the loop is over
    within [2 * len + 1] rounds. *)
Lemma acyclic_loop_ends items :
  (forall c k, (k < S (2 * List.length items))%nat ->
               skip_iter items (S k) c <> Some c) ->
  forall i m, _items m = items ->
    goToNextPage_loop (S (2 * List.length items)) i m <> OutOfFuel.
Proof.
  intros Hacyc i m Hitems Hout.
  apply loop_out_of_fuel_trace in Hout. rewrite Hitems in Hout.
  pose proof (@skip_trace_short items _ Hacyc
                (S (2 * List.length items)) i (Nat.le_refl _)) as Hshort.
  lia.
Qed.

Lemma cycle_runs_forever items i n :
  skip_iter items (S n) i = Some i ->
  forall k, skip_iter items k i <> None.
Proof.
  intros Hcyc k. induction k as [k IH] using lt_wf_ind.
  destruct (Nat.le_gt_cases k (S n)) as [Hle|Hgt].
  - intros Hk. replace (S n) with (k + (S n - k))%nat in Hcyc by lia.
    rewrite skip_iter_add, Hk in Hcyc. discriminate.
  - replace k with (S n + (k - S n))%nat by lia.
    rewrite skip_iter_add, Hcyc. apply IH. lia.
Qed.

Lemma search_covers items c k :
  find_hidden_cycle items = false ->
  (k < S (2 * List.length items))%nat ->
  skip_iter items (S k) c <> Some c.
Proof.
  intros Hfind Hk Hcyc.
  assert (Htrue : find_hidden_cycle items = true); [|congruence].
  unfold find_hidden_cycle. apply existsb_exists. exists c. split.
  - apply indices_spec. apply skip_iter_range in Hcyc. lia.
  - apply existsb_exists. exists k. split; [apply in_seq; lia|].
    unfold cycle_at. rewrite Hcyc. apply Z.eqb_refl.
Qed.

(** The bounded search decides whether there is a hidden cycle. *)
Lemma no_cycle_found items :
  find_hidden_cycle items = false -> ~ hidden_cycle items.
Proof.
  intros Hfind (i & n & Hcyc).
  pose proof (cycle_runs_forever _ _ Hcyc (S (2 * List.length items))) as Hrun.
  apply skip_trace_length in Hrun.
  pose proof (@skip_trace_short items _
                (fun c k => @search_covers items c k Hfind)
                (S (2 * List.length items)) i (Nat.le_refl _)) as Hshort.
  lia.
Qed.

Lemma cycle_found items :
  find_hidden_cycle items = true -> hidden_cycle items.
Proof.
  unfold find_hidden_cycle. intros H.
  apply existsb_exists in H as (i & _ & H).
  apply existsb_exists in H as (n & _ & H).
  unfold cycle_at in H.
  destruct (skip_iter items (S n) i) as [d|] eqn:Hd; [|discriminate].
  apply Z.eqb_eq in H. subst d. now exists i, n.
Qed.

Lemma conclude_not_out_of_fuel v m : conclude v m <> OutOfFuel.
Proof. destruct v; discriminate. Qed.

Lemma hidden_cycle_loops fuel :
  forall m, _items m = pages_hidden_cycle ->
    goToNextPage_loop fuel 1 m = OutOfFuel /\
    goToNextPage_loop fuel 2 m = OutOfFuel.
Proof.
  induction fuel as [|fuel IH]; intros m Hm; [now split|].
  cbn [goToNextPage_loop].
  destruct (@round_skip 1 m 2) as (l1 & _ & ->); [now rewrite Hm|].
  destruct (@round_skip 2 m 1) as (l2 & _ & ->); [now rewrite Hm|].
  split; now apply IH.
Qed.

(** C2. When the page list has no cycle of successors running through hidden
    pages only, every call of [goToNextPage] ends: from some amount of fuel
    on, the answer is the same and is not [OutOfFuel].  And there is a page
    list with such a cycle, B and C hidden and naming each other, on which
    [goToNextPage] from the fresh state is still looping after any number of
    rounds: the loop has no guard. *)
Theorem goToNextPage_termination :
  (forall m from_index,
      ~ hidden_cycle (_items m) ->
      exists fuel o,
        o <> OutOfFuel /\
        forall fuel', (fuel <= fuel')%nat ->
          goToNextPage fuel' from_index m = o) /\
  (hidden_cycle pages_hidden_cycle /\
   forall fuel,
     goToNextPage fuel None (fresh pages_hidden_cycle) = OutOfFuel).
Proof.
  split.
  - intros m from_index Hacyc. unfold goToNextPage.
    fold (start_index from_index m).
    assert (Hends :
      goToNextPage_loop (S (2 * List.length (_items m)))
        (start_index from_index m) m <> OutOfFuel).
    { apply acyclic_loop_ends; [|reflexivity].
      intros c k _ Hcyc. apply Hacyc. now exists c, k. }
    destruct (loop_sound _ _ _ eq_refl Hends) as (v & _ & _ & Hw & _).
    destruct (loop_complete Hw m eq_refl) as (fuel & lines & _ & Hloop).
    exists fuel, (conclude v (with_log m lines)).
    split; [apply conclude_not_out_of_fuel|exact Hloop].
  - split.
    + exists 1, 1%nat. reflexivity.
    + intros [|fuel]; [reflexivity|].
      change (goToNextPage_loop (S fuel) 0 (fresh pages_hidden_cycle)
              = OutOfFuel).
      cbn [goToNextPage_loop].
      destruct (@round_skip 0 (fresh pages_hidden_cycle) 1) as (l & _ & ->);
        [reflexivity|].
      now apply hidden_cycle_loops.
Qed.

Lemma goToNextPage_termination_witness :
  ~ hidden_cycle (_items (fresh pages_hidden_B)) /\
  exists fuel o,
    o <> OutOfFuel /\
    forall fuel', (fuel <= fuel')%nat ->
      goToNextPage fuel' None (fresh pages_hidden_B) = o.
Proof.
  assert (H : ~ hidden_cycle (_items (fresh pages_hidden_B))).
  { apply no_cycle_found. vm_compute. reflexivity. }
  split; [exact H|].
  exact (proj1 goToNextPage_termination (fresh pages_hidden_B) None H).
Defined.

(** ** Looking a page up by its id *)

Lemma subscript_nonneg (A : Type) (l : list A) i :
  0 <= i -> subscript l i = nth_error l (Z.to_nat i).
Proof.
  intros Hi. unfold subscript. apply Z.leb_le in Hi. now rewrite Hi.
Qed.

Lemma getPageIndexById_from_first items page_id :
  forall k idx,
    getPageIndexById_from items page_id k = Some idx ->
    exists n p,
      idx = k + Z.of_nat n /\
      nth_error items n = Some p /\ id p = page_id /\
      forall n' q, (n' < n)%nat -> nth_error items n' = Some q ->
                   id q <> page_id.
Proof.
  induction items as [|p0 rest IH]; intros k idx H; cbn in H; [discriminate|].
  destruct (String.eqb (id p0) page_id) eqn:E.
  - injection H as <-. exists 0%nat, p0. apply String.eqb_eq in E.
    repeat split; [lia|assumption|]. intros n' q Hn. lia.
  - destruct (IH _ _ H) as (n & p & Hidx & Hp & Hid & Hfirst).
    exists (S n), p. repeat split; [lia|assumption|assumption|].
    intros [|n'] q Hn Hq; cbn in Hq.
    + injection Hq as <-. now apply String.eqb_neq.
    + eapply Hfirst; [|eassumption]. lia.
Qed.

Lemma getPageIndexById_from_None items page_id :
  forall k,
    getPageIndexById_from items page_id k = None <->
    (forall p, In p items -> id p <> page_id).
Proof.
  induction items as [|p0 rest IH]; intros k; cbn.
  - split; [intros _ p []|reflexivity].
  - destruct (String.eqb (id p0) page_id) eqn:E.
    + split; [discriminate|]. intros H. apply String.eqb_eq in E.
      exfalso. apply (H p0); [now left|assumption].
    + rewrite IH. apply String.eqb_neq in E. split.
      * intros H p [<-|Hp]; auto.
      * intros H p Hp. apply H. now right.
Qed.

Lemma getPageIndexById_from_unique items page_item n :
  unique_ids items ->
  nth_error items n = Some page_item ->
  getPageIndexById_from items (id page_item) 0 = Some (Z.of_nat n).
Proof.
  intros Huniq Hn.
  destruct (getPageIndexById_from items (id page_item) 0) as [idx|] eqn:E.
  - destruct (getPageIndexById_from_first _ _ _ E)
      as (n' & p & -> & Hp & Hid & _).
    assert (n' = n); [|now subst].
    apply (proj1 (NoDup_nth_error (map id items)) Huniq).
    + rewrite length_map. apply nth_error_Some. congruence.
    + rewrite !nth_error_map, Hp, Hn. cbn. now rewrite Hid.
  - exfalso.
    apply (proj1 (getPageIndexById_from_None _ _ _) E page_item);
      [eapply nth_error_In; eassumption|reflexivity].
Qed.

(** X1. When [getPageIndexById] answers an index, it is an index of the list,
    the page there carries the id, and no page before it does: the first
    match wins. *)
Theorem getPageIndexById_first_match items page_id idx :
  getPageIndexById items page_id = Some idx ->
  0 <= idx < len items /\
  exists page_item,
    subscript items idx = Some page_item /\
    id page_item = page_id /\
    forall j q, 0 <= j < idx -> subscript items j = Some q ->
                id q <> page_id.
Proof.
  intros H. split; [now apply getPageIndexById_range in H|].
  destruct (getPageIndexById_from_first _ _ _ H)
    as (n & p & -> & Hp & Hid & Hfirst).
  exists p. split; [|split; [exact Hid|]].
  - rewrite subscript_nonneg by lia.
    now replace (Z.to_nat (0 + Z.of_nat n)) with n by lia.
  - intros j q Hj Hq. rewrite subscript_nonneg in Hq by lia.
    eapply Hfirst; [|exact Hq]. lia.
Qed.

Lemma getPageIndexById_first_match_witness :
  getPageIndexById
    [simple_page "A"; simple_page "B"; hidden_page "B"] "B" = Some 1 /\
  0 <= 1 < len [simple_page "A"; simple_page "B"; hidden_page "B"].
Proof.
  assert (H : getPageIndexById
                [simple_page "A"; simple_page "B"; hidden_page "B"] "B"
              = Some 1) by reflexivity.
  split; [exact H|].
  exact (proj1 (getPageIndexById_first_match _ _ H)).
Defined.

(** X2. [getPageIndexById] answers [None] exactly when no page of the list
    carries the id. *)
Theorem getPageIndexById_None_iff items page_id :
  getPageIndexById items page_id = None <->
  (forall page_item, In page_item items -> id page_item <> page_id).
Proof. apply getPageIndexById_from_None. Qed.

(** X3. When the ids of the list are pairwise different, looking up the id of
    the page at index [i] gives [i] back. *)
Theorem getPageIndexById_of_id items i page_item :
  unique_ids items ->
  0 <= i ->
  subscript items i = Some page_item ->
  getPageIndexById items (id page_item) = Some i.
Proof.
  intros Huniq Hi Hp. rewrite subscript_nonneg in Hp by assumption.
  unfold getPageIndexById.
  rewrite (@getPageIndexById_from_unique items page_item _ Huniq Hp).
  f_equal. lia.
Qed.

Lemma getPageIndexById_of_id_witness :
  unique_ids pages_ABCD /\
  getPageIndexById pages_ABCD (id (simple_page "C")) = Some 2.
Proof.
  assert (H : unique_ids pages_ABCD).
  { unfold unique_ids. cbn.
    repeat (constructor; [cbn; intuition discriminate|]). constructor. }
  split; [exact H|].
  apply (getPageIndexById_of_id H); [lia|reflexivity].
Defined.

(** ** The cursor stays inside the list *)

Lemma successor_nonneg items i c :
  0 <= i -> successor items i = Some c -> 0 <= c.
Proof.
  intros Hi. unfold successor.
  destruct (subscript items i) as [p|]; [|discriminate].
  destruct (truthy (next_page_id p)).
  - intros H. apply getPageIndexById_range in H. lia.
  - intros [= <-]. lia.
Qed.

Lemma walk_found_nonneg items i c :
  walk items i (VFound c) -> 0 <= i -> index_in_range items c.
Proof.
  intros H. remember (VFound c) as v eqn:Ev.
  induction H; try discriminate; intros Hi.
  - injection Ev as ->. pose proof (successor_nonneg _ Hi H).
    apply successor_range in H. unfold index_in_range. lia.
  - apply IHwalk; [assumption|].
    apply skip_step_spec in H as [H _].
    eapply successor_nonneg; eassumption.
Qed.

Lemma conclude_in_range items i v m lines :
  _items m = items ->
  cursor_in_range m ->
  index_in_range items i ->
  walk items i v ->
  exists m',
    conclude v (with_log m lines) = Returned m' /\ cursor_in_range m'.
Proof.
  intros Hitems [Hcur Hstack] Hi Hw. rewrite Hitems in Hcur, Hstack.
  destruct v; cbn [conclude].
  - exfalso. eapply walk_no_index_error; [|eassumption].
    unfold index_in_range in Hi. lia.
  - eexists. split; [reflexivity|].
    unfold cursor_in_range. cbn. now rewrite Hitems.
  - eexists. split; [reflexivity|].
    unfold cursor_in_range. cbn. rewrite Hitems.
    split; [unfold index_in_range in *; lia|constructor].
  - eexists. split; [reflexivity|].
    unfold _setCurrentPageIndex.
    destruct (next_page_index =? _current_page_index (with_log m lines)).
    + unfold cursor_in_range. cbn. now rewrite Hitems.
    + unfold cursor_in_range. cbn. rewrite Hitems. split.
      * eapply walk_found_nonneg; [eassumption|]. apply Hi.
      * now constructor.
Qed.

Lemma goToNextPage_in_range fuel i m :
  cursor_in_range m ->
  index_in_range (_items m) i ->
  goToNextPage_loop fuel i m = OutOfFuel \/
  exists m', goToNextPage_loop fuel i m = Returned m' /\ cursor_in_range m'.
Proof.
  intros Hinv Hi.
  destruct (goToNextPage_loop fuel i m) as [m'| e m'|] eqn:E;
    [right|right|now left].
  - apply loop_sound in E; [|discriminate].
    destruct E as (v & lines & _ & Hw & Hv).
    destruct (@conclude_in_range _ i v m lines eq_refl Hinv Hi Hw)
      as (m'' & Hc & Hr).
    exists m'. split; [reflexivity|]. congruence.
  - apply loop_sound in E; [|discriminate].
    destruct E as (v & lines & _ & Hw & Hv).
    destruct (@conclude_in_range _ i v m lines eq_refl Hinv Hi Hw)
      as (m'' & Hc & Hr).
    congruence.
Qed.

(** X4. On a state whose cursor and stack hold indices from 0 to [len - 1],
    every slot keeps them so, and [goToNextPage] and [goToPage] raise
    nothing: they return such a state, unless the loop runs on. *)
Theorem slots_keep_cursor_in_range m :
  cursor_in_range m ->
  (forall fuel,
      goToNextPage fuel None m = OutOfFuel \/
      exists m', goToNextPage fuel None m = Returned m' /\
                 cursor_in_range m') /\
  (forall fuel page_id,
      goToPage fuel page_id m = OutOfFuel \/
      exists m', goToPage fuel page_id m = Returned m' /\
                 cursor_in_range m') /\
  cursor_in_range (goToPreviousPage m) /\
  cursor_in_range (resetState m) /\
  cursor_in_range (atEnd m).
Proof.
  intros Hinv. pose proof Hinv as [Hcur Hstack].
  split; [|split; [|split; [|split]]].
  - intros fuel. now apply goToNextPage_in_range.
  - intros fuel page_id. unfold goToPage.
    destruct (getPageIndexById (_items m) page_id) as [idx|] eqn:Hid.
    + apply getPageIndexById_range in Hid.
      destruct (_shouldPageBeShown (_items m) idx).
      * right. eexists. split; [reflexivity|].
        unfold _setCurrentPageIndex.
        destruct (idx =? _current_page_index m); [exact Hinv|].
        split; [exact Hid|now constructor].
      * now apply goToNextPage_in_range.
    + right. eexists. split; [reflexivity|exact Hinv].
  - unfold goToPreviousPage.
    destruct (_previous_page_indices_stack m) as [|top rest] eqn:E.
    + split; [exact Hcur|]. cbn. rewrite E. constructor.
    + inversion Hstack; subst. now split.
  - split; [unfold index_in_range in *; cbn; lia|constructor].
  - split; [unfold index_in_range in *; cbn; lia|constructor].
Qed.

Lemma slots_keep_cursor_in_range_witness :
  cursor_in_range (fresh pages_ABCD) /\
  cursor_in_range (goToPreviousPage (fresh pages_ABCD)).
Proof.
  assert (H : cursor_in_range (fresh pages_ABCD)).
  { split; [unfold index_in_range, len; cbn; lia|constructor]. }
  split; [exact H|].
  exact (proj1 (proj2 (proj2 (slots_keep_cursor_in_range H)))).
Defined.

(** X5. With the cursor inside the list, [currentProgress] raises nothing
    and its value lies between 0 and 1, both included, as the comment in the
    source says; on a list of at most [2 ^ 53] pages it is below 1. *)
Theorem currentProgress_bounds m :
  index_in_range (_items m) (_current_page_index m) ->
  exists p,
    currentProgress m = inl p /\
    (0 <= p <= 1)%Q /\
    (len (_items m) <= 2 ^ 53 -> (p < 1)%Q).
Proof.
  unfold index_in_range. intros Hcur.
  assert (Hlen : 0 < len (_items m)) by lia.
  assert (Hdef : currentProgress m
                 = int_true_divide (_current_page_index m) (len (_items m))).
  { unfold currentProgress.
    destruct (len (_items m) =? 0) eqn:E; [|reflexivity].
    apply Z.eqb_eq in E. lia. }
  rewrite Hdef.
  destruct (int_true_divide_nearest (_current_page_index m)
              (len (_items m)) Hlen) as [Hov|(p & Hp & _ & Hnear)].
  { apply int_true_divide_overflow in Hov; [|exact Hlen].
    assert (Hbig : 1 * len (_items m) <= 2 ^ 1023 * len (_items m))
      by (apply Z.mul_le_mono_nonneg_r; lia).
    lia. }
  exists p. split; [exact Hp|].
  pose proof (quotient_spec (_current_page_index m) (len (_items m)) Hlen)
    as Hq.
  pose proof (inject_Z_pos _ Hlen) as HL.
  assert (Hc0 : (0 <= inject_Z (_current_page_index m))%Q)
    by (change 0%Q with (inject_Z 0); rewrite <- Zle_Qle; lia).
  assert (Hc1 : (inject_Z (_current_page_index m) + 1
                 <= inject_Z (len (_items m)))%Q).
  { change 1%Q with (inject_Z 1). rewrite <- inject_Z_plus, <- Zle_Qle. lia. }
  revert Hnear Hq.
  generalize (inject_Z (_current_page_index m) / inject_Z (len (_items m)))%Q.
  intros q Hnear Hq. rewrite Hq in Hc0, Hc1.
  assert (Hq0 : (0 <= q)%Q).
  { destruct (Qlt_le_dec q 0) as [Hlt|]; [|assumption]. exfalso. nra. }
  assert (Hq1 : (q < 1)%Q).
  { destruct (Qlt_le_dec q 1) as [|Hge]; [assumption|]. exfalso. nra. }
  destruct (nearest_in_unit_interval p q Hnear Hq0 Hq1) as [Hp01 Hbelow].
  split; [exact Hp01|]. intros Hsmall. apply Hbelow.
  assert (HL53 : (inject_Z (len (_items m)) <= inject_Z (2 ^ 53))%Q)
    by (now rewrite <- Zle_Qle).
  change (inject_Z (2 ^ 53)) with (9007199254740992 # 1)%Q in HL53.
  change (2 ^ (-53))%Q with (1 # 9007199254740992)%Q.
  destruct (Qlt_le_dec (1 - (1 # 9007199254740992)) q) as [Hgt|];
    [|assumption].
  exfalso. nra.
Qed.

Lemma currentProgress_bounds_witness :
  let m := mkModel pages_hidden_B 2 [0] [currentPageIndexChanged] [] in
  index_in_range (_items m) (_current_page_index m) /\
  exists p, currentProgress m = inl p /\ (p < 1)%Q.
Proof.
  intros m.
  assert (H : index_in_range (_items m) (_current_page_index m))
    by (unfold index_in_range, len; cbn; lia).
  split; [exact H|].
  destruct (currentProgress_bounds m H) as (p & Hp & _ & Hlt).
  exists p. split; [exact Hp|]. apply Hlt. unfold len. cbn. lia.
Defined.

(** ** Going back always changes the page *)

Lemma forward_result_no_stutter m m' :
  no_stutter m -> forward_result m m' -> no_stutter m'.
Proof.
  unfold no_stutter.
  intros Hinv [(_ & Hc & Hs & _) | [(_ & Hc & Hs & _) | (Hm & Hne & _)]].
  - now rewrite Hc, Hs.
  - rewrite Hc, Hs. exact I.
  - destruct Hm as (_ & _ & Hs & _). rewrite Hs. now split.
Qed.

(** X6. On a state in which the top of the stack differs from the cursor and
    no stack entry repeats the one below it, as in the fresh state, every
    slot leads to such a state again; so [goToPreviousPage] with a non-empty
    stack always changes the cursor. *)
Theorem goToPreviousPage_changes_page m :
  no_stutter m ->
  (forall fuel from_index m',
      goToNextPage fuel from_index m = Returned m' -> no_stutter m') /\
  (forall fuel page_id m',
      goToPage fuel page_id m = Returned m' -> no_stutter m') /\
  no_stutter (goToPreviousPage m) /\
  no_stutter (resetState m) /\
  no_stutter (atEnd m) /\
  (_previous_page_indices_stack m <> [] ->
   _current_page_index (goToPreviousPage m) <> _current_page_index m).
Proof.
  intros Hinv. split; [|split; [|split; [|split; [|split]]]].
  - intros fuel from_index m' H.
    eapply forward_result_no_stutter; [eassumption|].
    eapply goToNextPage_forward_result; eassumption.
  - intros fuel page_id m' H.
    eapply forward_result_no_stutter; [eassumption|].
    eapply goToPage_forward_result; eassumption.
  - unfold no_stutter, goToPreviousPage in *.
    destruct (_previous_page_indices_stack m) as [|top rest] eqn:E.
    + cbn. now rewrite E.
    + apply Hinv.
  - exact I.
  - exact I.
  - unfold no_stutter, goToPreviousPage in *.
    destruct (_previous_page_indices_stack m) as [|top rest]; [congruence|].
    intros _. cbn. destruct Hinv as [Hne _]. congruence.
Qed.

Lemma goToPreviousPage_changes_page_witness :
  let m := mkModel pages_ABCD 3 [1; 0]
             [currentPageIndexChanged; currentPageIndexChanged] [] in
  no_stutter m /\
  _current_page_index (goToPreviousPage m) <> _current_page_index m.
Proof.
  intros m.
  assert (H : no_stutter m) by (cbn; repeat split; discriminate).
  split; [exact H|].
  apply (proj2 (proj2 (proj2 (proj2 (proj2
           (@goToPreviousPage_changes_page m H)))))).
  discriminate.
Defined.

(** ** The signals a slot emits *)

Lemma forward_result_signal_protocol m m' :
  forward_result m m' -> signal_protocol m m'.
Proof.
  intros [(_ & Hc & Hs & He) | [(_ & Hc & Hs & He) | (Hm & _)]].
  - left. auto.
  - right; right. auto.
  - right; left. apply Hm.
Qed.

(** X7. Whatever a slot is called on, it either leaves cursor, stack and
    signals as they are, or emits [currentPageIndexChanged] as its last
    signal; [allFinished] comes only right before that last signal and only
    together with a reset of cursor and stack.  The cursor never changes
    without [currentPageIndexChanged]. *)
Theorem slots_follow_signal_protocol m :
  (forall fuel from_index m',
      goToNextPage fuel from_index m = Returned m' -> signal_protocol m m') /\
  (forall fuel page_id m',
      goToPage fuel page_id m = Returned m' -> signal_protocol m m') /\
  signal_protocol m (goToPreviousPage m) /\
  signal_protocol m (resetState m) /\
  signal_protocol m (atEnd m) /\
  (forall m', signal_protocol m m' ->
     _current_page_index m' <> _current_page_index m ->
     exists before,
       emitted m' = emitted m ++ before ++ [currentPageIndexChanged]).
Proof.
  split; [|split; [|split; [|split; [|split]]]].
  - intros fuel from_index m' H. apply forward_result_signal_protocol.
    eapply goToNextPage_forward_result; eassumption.
  - intros fuel page_id m' H. apply forward_result_signal_protocol.
    eapply goToPage_forward_result; eassumption.
  - unfold goToPreviousPage.
    destruct (_previous_page_indices_stack m) as [|top rest] eqn:E.
    + left. cbn. auto.
    + right; left. reflexivity.
  - right; left. reflexivity.
  - right; right. repeat split.
    unfold atEnd, resetState, emit. cbn. now rewrite <- app_assoc.
  - intros m' [(_ & Hc & _) | [He | (He & _)]] Hne.
    + congruence.
    + exists []. exact He.
    + exists [allFinished]. exact He.
Qed.

Lemma slots_follow_signal_protocol_witness :
  exists m',
    goToNextPage 1 None (fresh pages_ABCD) = Returned m' /\
    signal_protocol (fresh pages_ABCD) m' /\
    exists before,
      emitted m' = emitted (fresh pages_ABCD) ++ before
                     ++ [currentPageIndexChanged].
Proof.
  eexists. split; [reflexivity|].
  pose proof (slots_follow_signal_protocol (fresh pages_ABCD))
    as (Hnext & _ & _ & _ & _ & Hchange).
  assert (Hp := Hnext 1%nat None _ eq_refl).
  split; [exact Hp|]. apply (Hchange _ Hp). discriminate.
Defined.

(** ** Where completion comes from *)

Lemma successor_len items i :
  successor items i = Some (len items) ->
  i = len items - 1 /\
  exists page_item,
    subscript items i = Some page_item /\
    truthy (next_page_id page_item) = None.
Proof.
  unfold successor.
  destruct (subscript items i) as [p|] eqn:Hp; [|discriminate].
  destruct (truthy (next_page_id p)) eqn:Ht.
  - intros H. apply getPageIndexById_range in H. lia.
  - intros [= H]. split; [lia|]. exists p. auto.
Qed.

Lemma walk_finished_last items i :
  walk items i VFinished ->
  exists page_item,
    subscript items (len items - 1) = Some page_item /\
    truthy (next_page_id page_item) = None.
Proof.
  intros H. remember VFinished as v eqn:Ev.
  induction H; try discriminate; auto.
  apply successor_len in H as [-> H]. exact H.
Qed.

Lemma conclude_emits_allFinished v m lines m' :
  conclude v (with_log m lines) = Returned m' ->
  In allFinished (skipn (List.length (emitted m)) (emitted m')) ->
  v = VFinished.
Proof.
  destruct v; cbn [conclude]; intros [= <-]; try reflexivity; cbn.
  - rewrite skipn_all. intros [].
  - unfold _setCurrentPageIndex.
    destruct (next_page_index =? _current_page_index (with_log m lines)); cbn.
    + rewrite skipn_all. intros [].
    + rewrite skipn_app, skipn_all, Nat.sub_diag. cbn.
      intros [H|[]]. discriminate.
Qed.

(** X8. [goToNextPage] emits [allFinished] only when the last page of the
    list has no [next_page_id]: completion is reached by stepping past the
    end of the list, never through a [next_page_id]. *)
Theorem completion_needs_open_last_page fuel from_index m m' :
  goToNextPage fuel from_index m = Returned m' ->
  In allFinished (skipn (List.length (emitted m)) (emitted m')) ->
  exists page_item,
    subscript (_items m) (len (_items m) - 1) = Some page_item /\
    truthy (next_page_id page_item) = None.
Proof.
  unfold goToNextPage. fold (start_index from_index m). intros H Hin.
  apply loop_sound in H; [|discriminate].
  destruct H as (v & lines & _ & Hw & Hv). symmetry in Hv.
  rewrite (conclude_emits_allFinished _ _ _ Hv Hin) in Hw.
  now apply walk_finished_last in Hw.
Qed.

Lemma completion_needs_open_last_page_witness :
  let m := mkModel pages_ABCD 3 [1; 0]
             [currentPageIndexChanged; currentPageIndexChanged] [] in
  exists m',
    goToNextPage 1 None m = Returned m' /\
    In allFinished (skipn (List.length (emitted m)) (emitted m')) /\
    exists page_item,
      subscript (_items m) (len (_items m) - 1) = Some page_item /\
      truthy (next_page_id page_item) = None.
Proof.
  intros m. eexists. split; [reflexivity|].
  assert (Hin : In allFinished
                  (skipn (List.length (emitted m))
                     (emitted (atEnd m)))) by (cbn; auto).
  split; [exact Hin|].
  exact (@completion_needs_open_last_page 1 None m (atEnd m) eq_refl Hin).
Defined.

(** ** A bound on the rounds of the loop *)

Lemma loop_more_fuel fuel :
  forall i m o fuel',
    goToNextPage_loop fuel i m = o ->
    o <> OutOfFuel ->
    (fuel <= fuel')%nat ->
    goToNextPage_loop fuel' i m = o.
Proof.
  induction fuel as [|fuel IH]; intros i m o fuel' H Hne Hf; cbn in H.
  - congruence.
  - destruct fuel' as [|fuel']; [lia|]. cbn.
    destruct (round i m) as [o'|c|c m1]; try assumption.
    eapply IH; [eassumption|assumption|lia].
Qed.

Lemma skip_iter_loops fuel :
  forall i m,
    skip_iter (_items m) fuel i <> None ->
    goToNextPage_loop fuel i m = OutOfFuel.
Proof.
  induction fuel as [|fuel IH]; intros i m H; [reflexivity|].
  cbn [skip_iter] in H. cbn [goToNextPage_loop].
  destruct (skip_step (_items m) i) as [c|] eqn:Hskip; [|congruence].
  destruct (round_skip _ _ Hskip) as (line & _ & ->).
  now apply IH.
Qed.

Lemma repeated_skip_runs_forever items n :
  forall i,
    List.length (skip_trace items n i) = n ->
    ~ NoDup (skip_trace items n i) ->
    forall k, skip_iter items k i <> None.
Proof.
  induction n as [|n IH]; intros i Hlen Hdup k.
  - exfalso. apply Hdup. constructor.
  - cbn [skip_trace] in Hlen, Hdup.
    destruct (skip_step items i) as [c|] eqn:Hc; [|discriminate].
    cbn in Hlen. injection Hlen as Hlen.
    assert (Hfrom_c : forall k', skip_iter items k' c <> None).
    { destruct (in_dec Z.eq_dec c (skip_trace items n c)) as [Hin|Hnin].
      - apply skip_trace_in_iter in Hin as (j & _ & Hcyc).
        eapply cycle_runs_forever; eassumption.
      - apply IH; [assumption|]. intros Hnd. apply Hdup.
        now constructor. }
    destruct k as [|k]; [discriminate|].
    cbn [skip_iter]. rewrite Hc. apply Hfrom_c.
Qed.

Lemma long_loop_runs_forever i m :
  goToNextPage_loop (S (2 * List.length (_items m))) i m = OutOfFuel ->
  forall fuel, goToNextPage_loop fuel i m = OutOfFuel.
Proof.
  intros Hout fuel. apply skip_iter_loops.
  apply loop_out_of_fuel_trace in Hout.
  eapply repeated_skip_runs_forever; [exact Hout|].
  intros Hnd.
  assert (Hle : (List.length
                   (skip_trace (_items m)
                      (S (2 * List.length (_items m))) i)
                 <= List.length (indices (_items m)))%nat).
  { apply NoDup_incl_length; [exact Hnd|].
    intros d Hd. apply skip_trace_in_iter in Hd as (k & _ & Hit).
    apply skip_iter_range in Hit. apply indices_spec. lia. }
  unfold indices in Hle. rewrite length_map, length_seq in Hle. lia.
Qed.

(** X9. A call of [goToNextPage] that ends does so within [2 * len + 1]
    rounds of its loop: whatever a run with any amount of fuel answers, the
    run with that many rounds answers too, and a run still looping after
    that many rounds loops for ever. *)
Theorem goToNextPage_round_bound fuel from_index m :
  (goToNextPage fuel from_index m <> OutOfFuel ->
   goToNextPage (S (2 * List.length (_items m))) from_index m
   = goToNextPage fuel from_index m) /\
  (goToNextPage (S (2 * List.length (_items m))) from_index m = OutOfFuel ->
   goToNextPage fuel from_index m = OutOfFuel).
Proof.
  unfold goToNextPage. fold (start_index from_index m).
  assert (Hforever :
    goToNextPage_loop (S (2 * List.length (_items m)))
      (start_index from_index m) m = OutOfFuel ->
    goToNextPage_loop fuel (start_index from_index m) m = OutOfFuel).
  { intros H. now apply long_loop_runs_forever. }
  split; [|exact Hforever].
  intros Hne.
  destruct (goToNextPage_loop (S (2 * List.length (_items m)))
              (start_index from_index m) m) as [m1|e m1|] eqn:Hcap.
  - pose proof (@loop_more_fuel _ _ _ _
                  (Nat.max fuel (S (2 * List.length (_items m))))
                  Hcap ltac:(discriminate) (Nat.le_max_r _ _)) as H1.
    pose proof (@loop_more_fuel _ _ _ _
                  (Nat.max fuel (S (2 * List.length (_items m))))
                  eq_refl Hne (Nat.le_max_l _ _)) as H2.
    congruence.
  - pose proof (@loop_more_fuel _ _ _ _
                  (Nat.max fuel (S (2 * List.length (_items m))))
                  Hcap ltac:(discriminate) (Nat.le_max_r _ _)) as H1.
    pose proof (@loop_more_fuel _ _ _ _
                  (Nat.max fuel (S (2 * List.length (_items m))))
                  eq_refl Hne (Nat.le_max_l _ _)) as H2.
    congruence.
  - exfalso. apply Hne. now apply Hforever.
Qed.

Lemma goToNextPage_round_bound_witness :
  goToNextPage 40 None (fresh pages_hidden_B) <> OutOfFuel /\
  goToNextPage 7 None (fresh pages_hidden_B)
  = goToNextPage 40 None (fresh pages_hidden_B).
Proof.
  assert (H : goToNextPage 40 None (fresh pages_hidden_B) <> OutOfFuel)
    by (vm_compute; discriminate).
  split; [exact H|].
  exact (proj1 (goToNextPage_round_bound 40 None (fresh pages_hidden_B)) H).
Defined.

(** ** Skipping runs of hidden pages *)

Section NoNextPageIds.

Variable items : list Page.
Hypothesis no_ids : no_next_page_ids items.

Lemma plain_step i :
  index_in_range items i -> successor items i = Some (i + 1).
Proof.
  intros Hi. unfold successor, index_in_range in *.
  destruct (@subscript_in_range _ items i) as [p Hp]; [lia|].
  rewrite Hp. apply subscript_In in Hp.
  unfold no_next_page_ids in no_ids. rewrite Forall_forall in no_ids.
  now rewrite (no_ids p Hp).
Qed.

Lemma walk_to_first_shown n :
  forall i c,
    c = i + 1 + Z.of_nat n ->
    0 <= i -> c < len items ->
    _shouldPageBeShown items c = true ->
    (forall j, i < j < c -> _shouldPageBeShown items j = false) ->
    walk items i (VFound c).
Proof.
  induction n as [|n IH]; intros i c Hc Hi Hlen Hshow Hhidden.
  - apply walk_found; [|lia|assumption].
    rewrite plain_step by (unfold index_in_range; lia). f_equal. lia.
  - apply walk_skip with (c := i + 1).
    + apply skip_step_spec. split.
      * apply plain_step. unfold index_in_range. lia.
      * apply Hhidden. lia.
    + apply IH; try assumption; try lia.
      intros j Hj. apply Hhidden. lia.
Qed.

Lemma walk_past_all_hidden n :
  forall i,
    len items = i + 1 + Z.of_nat n ->
    0 <= i ->
    (forall j, i < j < len items -> _shouldPageBeShown items j = false) ->
    walk items i VFinished.
Proof.
  induction n as [|n IH]; intros i Hlen Hi Hhidden.
  - apply walk_finished.
    rewrite plain_step by (unfold index_in_range; lia). f_equal. lia.
  - apply walk_skip with (c := i + 1).
    + apply skip_step_spec. split.
      * apply plain_step. unfold index_in_range. lia.
      * apply Hhidden. lia.
    + apply IH; try lia. intros j Hj. apply Hhidden. lia.
Qed.

End NoNextPageIds.

(** X10. On a page list without [next_page_id], [goToNextPage] started at an
    index of the list goes to the first shown page after it, whatever number
    of hidden pages lies between, and writes only debug lines; when every
    page after it is hidden, it completes instead. *)
Theorem goToNextPage_first_shown_after from_index m :
  no_next_page_ids (_items m) ->
  index_in_range (_items m) (start_index from_index m) ->
  (forall c,
      start_index from_index m < c < len (_items m) ->
      _shouldPageBeShown (_items m) c = true ->
      (forall j, start_index from_index m < j < c ->
                 _shouldPageBeShown (_items m) j = false) ->
      exists fuel lines,
        debug_lines lines /\
        forall fuel', (fuel <= fuel')%nat ->
          goToNextPage fuel' from_index m
          = Returned (_setCurrentPageIndex c (with_log m lines))) /\
  ((forall j, start_index from_index m < j < len (_items m) ->
              _shouldPageBeShown (_items m) j = false) ->
   exists fuel lines,
     debug_lines lines /\
     forall fuel', (fuel <= fuel')%nat ->
       goToNextPage fuel' from_index m
       = Returned (atEnd (with_log m lines))).
Proof.
  intros Hno Hi. unfold index_in_range in Hi. split.
  - intros c Hc Hshow Hhidden.
    apply (@goToNextPage_reaches from_index m (VFound c)).
    apply (@walk_to_first_shown _ Hno
             (Z.to_nat (c - start_index from_index m - 1)));
      try assumption; lia.
  - intros Hhidden.
    apply (@goToNextPage_reaches from_index m VFinished).
    apply (@walk_past_all_hidden _ Hno
             (Z.to_nat (len (_items m) - start_index from_index m - 1)));
      try assumption; lia.
Qed.

Lemma goToNextPage_first_shown_after_witness :
  let m := fresh pages_hidden_B in
  no_next_page_ids (_items m) /\
  index_in_range (_items m) (start_index None m) /\
  exists fuel lines,
    debug_lines lines /\
    forall fuel', (fuel <= fuel')%nat ->
      goToNextPage fuel' None m
      = Returned (_setCurrentPageIndex 2 (with_log m lines)).
Proof.
  intros m.
  assert (Hno : no_next_page_ids (_items m)) by (repeat constructor).
  assert (Hi : index_in_range (_items m) (start_index None m))
    by (unfold index_in_range, len; cbn; lia).
  split; [exact Hno|]. split; [exact Hi|].
  apply (proj1 (@goToNextPage_first_shown_after None m Hno Hi) 2).
  - unfold len. cbn. lia.
  - reflexivity.
  - intros j Hj. cbn in Hj. assert (j = 1) as -> by lia. reflexivity.
Defined.

(** ** Jumping to a page and back *)

(** X11. When the ids of the list are pairwise different, [goToPage] with the
    id of a shown page other than the current one moves the cursor to that
    very page, and [goToPreviousPage] right after it restores cursor and
    stack. *)
Theorem goToPage_and_back m i page_item :
  unique_ids (_items m) ->
  0 <= i ->
  subscript (_items m) i = Some page_item ->
  _shouldPageBeShown (_items m) i = true ->
  i <> _current_page_index m ->
  forall fuel,
    exists m',
      goToPage fuel (id page_item) m = Returned m' /\
      moved_to i m m' /\
      _current_page_index (goToPreviousPage m') = _current_page_index m /\
      _previous_page_indices_stack (goToPreviousPage m')
        = _previous_page_indices_stack m.
Proof.
  intros Huniq Hi Hp Hshow Hne fuel.
  rewrite subscript_nonneg in Hp by assumption.
  pose proof (@getPageIndexById_from_unique _ _ _ Huniq Hp) as Hid.
  rewrite Z2Nat.id in Hid by assumption.
  exists (_setCurrentPageIndex i m). split.
  - unfold goToPage, getPageIndexById. now rewrite Hid, Hshow.
  - pose proof (@_setCurrentPageIndex_other i m Hne) as Hm.
    split; [exact Hm|].
    destruct Hm as (_ & _ & Hs & _).
    destruct (goToPreviousPage_pop _ Hs) as (Hc' & Hs' & _). auto.
Qed.

Lemma goToPage_and_back_witness :
  let m := fresh pages_ABCD in
  unique_ids (_items m) /\
  exists m',
    goToPage 0 "C" m = Returned m' /\
    moved_to 2 m m' /\
    _current_page_index (goToPreviousPage m') = 0 /\
    _previous_page_indices_stack (goToPreviousPage m') = [].
Proof.
  intros m.
  assert (H : unique_ids (_items m)).
  { unfold unique_ids. cbn.
    repeat (constructor; [cbn; intuition discriminate|]). constructor. }
  split; [exact H|].
  apply (@goToPage_and_back m 2 (simple_page "C") H);
    [lia|reflexivity|reflexivity|discriminate].
Defined.

(** ** Popping the whole stack *)

Lemma skipn_cons_nth (A : Type) (d : A) j :
  forall (l : list A) top rest,
    skipn j l = top :: rest ->
    (j < List.length l)%nat /\ nth j l d = top /\ skipn (S j) l = rest.
Proof.
  induction j as [|j IH]; intros [|a l] top rest H; cbn in H;
    try discriminate.
  - injection H as <- <-. cbn. repeat split. lia.
  - destruct (IH _ _ _ H) as (Hlt & Hn & Hs). cbn [List.length nth].
    repeat split; [lia|assumption|exact Hs].
Qed.

(** X12. [j] calls of [goToPreviousPage] pop the [j] topmost entries of the
    stack in order: the cursor is the last one popped, the stack is what
    lies below, and one [currentPageIndexChanged] was emitted per pop; calls
    beyond the depth of the stack add nothing. *)
Theorem goToPreviousPage_times_pops m j :
  let stack := _previous_page_indices_stack m in
  let popped := Nat.min j (List.length stack) in
  _current_page_index (goToPreviousPage_times j m)
    = nth popped (_current_page_index m :: stack) 0 /\
  _previous_page_indices_stack (goToPreviousPage_times j m)
    = skipn j stack /\
  emitted (goToPreviousPage_times j m)
    = emitted m ++ repeat currentPageIndexChanged popped.
Proof.
  cbv zeta. induction j as [|j (IHc & IHs & IHe)].
  - cbn. now rewrite app_nil_r.
  - cbn [goToPreviousPage_times]. unfold goToPreviousPage.
    rewrite IHs.
    destruct (skipn j (_previous_page_indices_stack m))
      as [|top rest] eqn:E.
    + assert (Hlen : (List.length (_previous_page_indices_stack m) <= j)%nat).
      { destruct (Nat.le_gt_cases
                    (List.length (_previous_page_indices_stack m)) j)
          as [|Hgt]; [assumption|].
        apply (f_equal (@List.length Z)) in E.
        rewrite length_skipn in E. cbn in E. lia. }
      cbn [Logger_log _current_page_index _previous_page_indices_stack
             emitted].
      rewrite IHc, IHs, IHe.
      rewrite !Nat.min_r by lia.
      rewrite skipn_all2 by lia. auto.
    + destruct (@skipn_cons_nth _ 0 _ _ _ _ E) as (Hlt & Hn & Hs).
      cbn [emit _current_page_index _previous_page_indices_stack emitted].
      rewrite IHe, !Nat.min_l by lia.
      split; [|split].
      * cbn [nth]. now rewrite Hn.
      * now rewrite Hs.
      * rewrite <- app_assoc. f_equal.
        cbn [repeat]. now rewrite repeat_cons.
Qed.

(** ** The predicate of the machine-actions page *)

(** X13. [shouldShowMachineActions] answers true exactly when there is an
    active machine and at least one first-start action of its definition
    needs user interaction; without an active machine it answers false. *)
Theorem shouldShowMachineActions_spec app :
  shouldShowMachineActions app tt = true <->
  exists global_stack action,
    activeMachine app = Some global_stack /\
    In action
       (getFirstStartActions app (definition_getId global_stack)) /\
    needsUserInteraction action = true.
Proof.
  unfold shouldShowMachineActions. split.
  - destruct (activeMachine app) as [gs|]; [|discriminate].
    intros H. apply Z.ltb_lt in H. unfold len in H.
    destruct (filter needsUserInteraction
                (getFirstStartActions app (definition_getId gs)))
      as [|a rest] eqn:E; [cbn in H; lia|].
    assert (Hin : In a (filter needsUserInteraction
                          (getFirstStartActions app (definition_getId gs))))
      by (rewrite E; now left).
    apply filter_In in Hin as [Hin Hneeds].
    exists gs, a. auto.
  - intros (gs & a & -> & Hin & Hneeds).
    apply Z.ltb_lt. unfold len.
    assert (Hf : In a (filter needsUserInteraction
                         (getFirstStartActions app (definition_getId gs))))
      by (apply filter_In; auto).
    destruct (filter needsUserInteraction
                (getFirstStartActions app (definition_getId gs)));
      [contradiction|cbn; lia].
Qed.

(** ** The default wizard *)

Lemma goToNextPage_times_succ fuel k m0 m m' :
  goToNextPage_times fuel k m0 = Returned m ->
  goToNextPage fuel None m = Returned m' ->
  goToNextPage_times fuel (S k) m0 = Returned m'.
Proof. intros Hk Hgo. cbn [goToNextPage_times]. now rewrite Hk. Qed.

Lemma call_found fuel m c :
  successor (_items m) (_current_page_index m) = Some c ->
  c <> len (_items m) ->
  _shouldPageBeShown (_items m) c = true ->
  goToNextPage (S fuel) None m = Returned (_setCurrentPageIndex c m).
Proof.
  intros Hs Hc Hshow. unfold goToNextPage. cbn [goToNextPage_loop].
  now rewrite (round_found _ _ Hs Hc Hshow).
Qed.

Lemma call_skip fuel m c :
  skip_step (_items m) (_current_page_index m) = Some c ->
  exists line,
    fst line = "d"%string /\
    goToNextPage (S fuel) None m = goToNextPage_loop fuel c (with_log m [line]).
Proof.
  intros Hs. destruct (round_skip _ _ Hs) as (line & Hd & Hr).
  exists line. split; [exact Hd|].
  unfold goToNextPage. cbn [goToNextPage_loop]. now rewrite Hr.
Qed.

Section DefaultWizard.

Variable path : string -> string.
Variable show : unit -> bool.

Local Abbreviation wizard := (initialize path show []).

Lemma wizard_unique_ids : unique_ids wizard.
Proof.
  unfold unique_ids. cbn.
  repeat (constructor; [cbn; intuition discriminate|]). constructor.
Qed.

Lemma wizard_machine_actions_shown :
  _shouldPageBeShown wizard 6 = show tt.
Proof. reflexivity. Qed.

Lemma wizard_walk i :
  index_in_range wizard i ->
  exists v,
    walk wizard i v /\
    (v = VFinished \/
     exists c, v = VFound c /\ index_in_range wizard c /\
               _shouldPageBeShown wizard c = true).
Proof.
  unfold index_in_range. change (len wizard) with 8. intros Hi.
  assert (Hfound : forall a c,
             successor wizard a = Some c -> 0 <= c < 8 ->
             _shouldPageBeShown wizard c = true ->
             exists v,
               walk wizard a v /\
               (v = VFinished \/
                exists c, v = VFound c /\ 0 <= c < 8 /\
                          _shouldPageBeShown wizard c = true)).
  { intros a c Hs Hc Hshow. exists (VFound c). split.
    - apply walk_found; [exact Hs|change (len wizard) with 8; lia|exact Hshow].
    - right. exists c. auto. }
  assert (Hcases : i = 0 \/ i = 1 \/ i = 2 \/ i = 3 \/ i = 4 \/ i = 5
                   \/ i = 6 \/ i = 7) by lia.
  destruct Hcases as [->|[->|[->|[->|[->|[->|[->| ->]]]]]]].
  - apply (Hfound 0 1); [reflexivity|lia|reflexivity].
  - apply (Hfound 1 2); [reflexivity|lia|reflexivity].
  - apply (Hfound 2 3); [reflexivity|lia|reflexivity].
  - apply (Hfound 3 4); [reflexivity|lia|reflexivity].
  - destruct (show tt) eqn:E.
    + apply (Hfound 4 6); [reflexivity|lia|].
      now rewrite wizard_machine_actions_shown.
    + exists (VFound 7). split.
      * apply walk_skip with (c := 6).
        -- apply skip_step_spec. split; [reflexivity|].
           now rewrite wizard_machine_actions_shown.
        -- apply walk_found;
             [reflexivity|change (len wizard) with 8; lia|reflexivity].
      * right. exists 7. repeat split; lia.
  - destruct (show tt) eqn:E.
    + apply (Hfound 5 6); [reflexivity|lia|].
      now rewrite wizard_machine_actions_shown.
    + exists (VFound 7). split.
      * apply walk_skip with (c := 6).
        -- apply skip_step_spec. split; [reflexivity|].
           now rewrite wizard_machine_actions_shown.
        -- apply walk_found;
             [reflexivity|change (len wizard) with 8; lia|reflexivity].
      * right. exists 7. repeat split; lia.
  - apply (Hfound 6 7); [reflexivity|lia|reflexivity].
  - exists VFinished. split; [|now left].
    apply walk_finished. reflexivity.
Qed.

End DefaultWizard.

(** X14. The pages that [initialize] sets up have pairwise different ids,
    and on them every call of [goToNextPage] started at an index of the list
    ends, whatever the machine-actions predicate answers: it completes, or it
    moves the cursor to a shown page of the list; it never raises and never
    logs an unknown id. *)
Theorem default_pages_calls_end path show from_index m :
  _items m = initialize path show [] ->
  index_in_range (_items m) (start_index from_index m) ->
  unique_ids (_items m) /\
  exists fuel lines,
    debug_lines lines /\
    ((forall fuel', (fuel <= fuel')%nat ->
        goToNextPage fuel' from_index m
        = Returned (atEnd (with_log m lines))) \/
     (exists c,
        index_in_range (_items m) c /\
        _shouldPageBeShown (_items m) c = true /\
        forall fuel', (fuel <= fuel')%nat ->
          goToNextPage fuel' from_index m
          = Returned (_setCurrentPageIndex c (with_log m lines)))).
Proof.
  intros Hitems Hi. split.
  - rewrite Hitems. apply wizard_unique_ids.
  - rewrite Hitems in Hi.
    destruct (wizard_walk Hi)
      as (v & Hw & [-> | (c & -> & Hc & Hshow)]);
      rewrite <- Hitems in Hw;
      destruct (goToNextPage_reaches from_index m Hw)
        as (fuel & lines & Hl & Hgo);
      exists fuel, lines; (split; [exact Hl|]).
    + left. exact Hgo.
    + right. exists c. rewrite Hitems. auto.
Qed.

Lemma default_pages_calls_end_witness :
  let m := fresh (initialize (fun name => name) (fun _ => false) []) in
  index_in_range (_items m) (start_index (Some 4) m) /\
  unique_ids (_items m) /\
  exists fuel lines,
    debug_lines lines /\
    ((forall fuel', (fuel <= fuel')%nat ->
        goToNextPage fuel' (Some 4) m
        = Returned (atEnd (with_log m lines))) \/
     (exists c,
        index_in_range (_items m) c /\
        _shouldPageBeShown (_items m) c = true /\
        forall fuel', (fuel <= fuel')%nat ->
          goToNextPage fuel' (Some 4) m
          = Returned (_setCurrentPageIndex c (with_log m lines)))).
Proof.
  intros m.
  assert (Hi : index_in_range (_items m) (start_index (Some 4) m))
    by (unfold index_in_range, len; cbn; lia).
  split; [exact Hi|].
  exact (@default_pages_calls_end (fun name => name) (fun _ => false)
           (Some 4) m eq_refl Hi).
Defined.

(** X15. From the fresh state on the default pages, repeated [goToNextPage]
    shows welcome, user_agreement, whats_new, data_collections and
    add_network_or_local_printer in turn, then machine_actions only when its
    predicate answers true, then cloud, and the next call completes: the
    seventh when machine_actions is shown, the sixth when it is not.  The
    page add_printer_by_ip is never shown on that way. *)
Theorem default_pages_path path show fuel :
  let m0 := fresh (initialize path show []) in
  (forall k, (k <= 4)%nat ->
     exists m,
       goToNextPage_times (S (S fuel)) k m0 = Returned m /\
       _current_page_index m = Z.of_nat k) /\
  (exists m,
     goToNextPage_times (S (S fuel)) 5 m0 = Returned m /\
     _current_page_index m = (if show tt then 6 else 7) /\
     _previous_page_indices_stack m = [4; 3; 2; 1; 0]) /\
  (exists m,
     goToNextPage_times (S (S fuel)) (if show tt then 6 else 5) m0
       = Returned m /\
     _current_page_index m = 7 /\
     isCurrentPageLast m = true) /\
  (exists m,
     goToNextPage_times (S (S fuel)) (if show tt then 7 else 6) m0
       = Returned m /\
     _current_page_index m = 0 /\
     _previous_page_indices_stack m = [] /\
     count_occ Signal_eq_dec (emitted m) allFinished = 1%nat).
Proof.
  intros m0.
  assert (H4 : goToNextPage_times (S (S fuel)) 4 m0
               = Returned (mkModel (initialize path show []) 4 [3; 2; 1; 0]
                             (repeat currentPageIndexChanged 4) []))
    by reflexivity.
  split.
  { intros k Hk.
    destruct k as [|[|[|[|[|k]]]]]; [| | | | |lia];
      (eexists; split; reflexivity). }
  destruct (show tt) eqn:E.
  - assert (H5 : exists m5,
               goToNextPage_times (S (S fuel)) 5 m0 = Returned m5 /\
               m5 = mkModel (initialize path show []) 6 [4; 3; 2; 1; 0]
                      (repeat currentPageIndexChanged 5) []).
    { eexists. split; [|reflexivity].
      eapply goToNextPage_times_succ; [exact H4|].
      rewrite (@call_found _ _ 6);
        [reflexivity|reflexivity|discriminate|].
      cbn [_items]. now rewrite wizard_machine_actions_shown. }
    destruct H5 as (m5 & H5 & ->).
    assert (H6 : goToNextPage_times (S (S fuel)) 6 m0
                 = Returned (mkModel (initialize path show []) 7
                               [6; 4; 3; 2; 1; 0]
                               (repeat currentPageIndexChanged 6) [])).
    { eapply goToNextPage_times_succ; [exact H5|reflexivity]. }
    split; [eexists; split; [exact H5|split; reflexivity]|].
    split; [eexists; split; [exact H6|split; reflexivity]|].
    eexists. split.
    + eapply goToNextPage_times_succ; [exact H6|reflexivity].
    + repeat split.
  - assert (Hskip : skip_step (initialize path show []) 4 = Some 6).
    { apply skip_step_spec. split; [reflexivity|].
      now rewrite wizard_machine_actions_shown. }
    destruct (@call_skip (S fuel)
                (mkModel (initialize path show []) 4 [3; 2; 1; 0]
                   (repeat currentPageIndexChanged 4) []) 6 Hskip)
      as (line & _ & Hcall).
    assert (H5 : goToNextPage_times (S (S fuel)) 5 m0
                 = Returned (mkModel (initialize path show []) 7
                               [4; 3; 2; 1; 0]
                               (repeat currentPageIndexChanged 5) [line])).
    { eapply goToNextPage_times_succ; [exact H4|].
      rewrite Hcall. reflexivity. }
    split; [eexists; split; [exact H5|split; reflexivity]|].
    split; [eexists; split; [exact H5|split; reflexivity]|].
    eexists. split.
    + eapply goToNextPage_times_succ; [exact H5|reflexivity].
    + repeat split.
Qed.

(** X16. With pairwise different ids and no [next_page_id] in the list,
    [goToPage] with the id of a hidden page goes to the first shown page
    after that page, and completes when every page after it is hidden. *)
Theorem goToPage_hidden_first_shown_after m i page_item :
  unique_ids (_items m) ->
  no_next_page_ids (_items m) ->
  0 <= i ->
  subscript (_items m) i = Some page_item ->
  _shouldPageBeShown (_items m) i = false ->
  (forall c,
      i < c < len (_items m) ->
      _shouldPageBeShown (_items m) c = true ->
      (forall j, i < j < c -> _shouldPageBeShown (_items m) j = false) ->
      exists fuel lines,
        debug_lines lines /\
        forall fuel', (fuel <= fuel')%nat ->
          goToPage fuel' (id page_item) m
          = Returned (_setCurrentPageIndex c (with_log m lines))) /\
  ((forall j, i < j < len (_items m) ->
              _shouldPageBeShown (_items m) j = false) ->
   exists fuel lines,
     debug_lines lines /\
     forall fuel', (fuel <= fuel')%nat ->
       goToPage fuel' (id page_item) m
       = Returned (atEnd (with_log m lines))).
Proof.
  intros Huniq Hno Hi Hp Hhid.
  pose proof (subscript_Some_range _ _ Hp) as Hr.
  rewrite subscript_nonneg in Hp by assumption.
  pose proof (@getPageIndexById_from_unique _ _ _ Huniq Hp) as Hid.
  rewrite Z2Nat.id in Hid by assumption.
  assert (Hgo : forall fuel,
             goToPage fuel (id page_item) m = goToNextPage fuel (Some i) m).
  { intros fuel. unfold goToPage, getPageIndexById. now rewrite Hid, Hhid. }
  split.
  - intros c Hc Hshow Hbetween.
    assert (Hw : walk (_items m) (start_index (Some i) m) (VFound c)).
    { apply (@walk_to_first_shown _ Hno (Z.to_nat (c - i - 1)));
        try assumption; cbn [start_index]; lia. }
    destruct (goToNextPage_reaches (Some i) m Hw)
      as (fuel & lines & Hl & Hrun).
    exists fuel, lines. split; [exact Hl|].
    intros fuel' Hf. rewrite Hgo. now apply Hrun.
  - intros Hall.
    assert (Hw : walk (_items m) (start_index (Some i) m) VFinished).
    { apply (@walk_past_all_hidden _ Hno
               (Z.to_nat (len (_items m) - i - 1)));
        try assumption; cbn [start_index]; lia. }
    destruct (goToNextPage_reaches (Some i) m Hw)
      as (fuel & lines & Hl & Hrun).
    exists fuel, lines. split; [exact Hl|].
    intros fuel' Hf. rewrite Hgo. now apply Hrun.
Qed.

Lemma goToPage_hidden_first_shown_after_witness :
  let m := fresh pages_hidden_B in
  unique_ids (_items m) /\
  no_next_page_ids (_items m) /\
  exists fuel lines,
    debug_lines lines /\
    forall fuel', (fuel <= fuel')%nat ->
      goToPage fuel' (id (hidden_page "B")) m
      = Returned (_setCurrentPageIndex 2 (with_log m lines)).
Proof.
  intros m.
  assert (Hu : unique_ids (_items m)).
  { unfold unique_ids. cbn.
    repeat (constructor; [cbn; intuition discriminate|]). constructor. }
  assert (Hno : no_next_page_ids (_items m)) by (repeat constructor).
  split; [exact Hu|]. split; [exact Hno|].
  apply (proj1 (@goToPage_hidden_first_shown_after m 1 (hidden_page "B")
                  Hu Hno ltac:(lia) eq_refl eq_refl) 2).
  - unfold len. cbn. lia.
  - reflexivity.
  - intros j Hj. lia.
Defined.
